(** * gzfs: the zdb pool parser and its TTL cache

    A shallow embedding of [zdb.go] (the types [ZDBPool], [ZDBPoolChild],
    [zdbCacheEntry], the methods [parseLine], [parseProp], [zdbOutput] and
    [GetPool]), of [Cmd.RunBytes] and [NewClient] from the client file, and of
    the parts of Go's [strings], [unicode/utf8], [strconv] and [fmt] packages
    that these functions call.

    Go strings are byte sequences: they are modelled as [string], whose
    characters are the 256 byte values.  Go's [int] is taken at its 64-bit
    width.  Instants and durations are integers counting nanoseconds. *)

From Stdlib Require Import ZArith NArith Ascii Lia Bool.
From stdpp Require Import base option list strings gmap fin_maps.

Local Open Scope Z_scope.

(* ===================================================================== *)
(** * Go's [unicode/utf8] and [strings] packages *)
(* ===================================================================== *)

Module utf8.

(** A rune is a Unicode code point. *)
Definition rune := Z.

Definition RuneError : rune := 0xFFFD.
Definition RuneSelf : Z := 0x80.
Definition UTFMax : nat := 4.

Definition byte_of (c : ascii) : Z := Z.of_N (N_of_ascii c).

(** A continuation byte has the form 10xxxxxx. *)
Definition is_cont (b : Z) : bool := (0x80 <=? b) && (b <=? 0xBF).

(** [RuneStart]: the byte could be the first byte of an encoded rune. *)
Definition RuneStart (b : Z) : bool := negb (Z.land b 0xC0 =? 0x80).

Definition in_range (lo hi b : Z) : bool := (lo <=? b) && (b <=? hi).

(** [DecodeRuneInString]: the first rune of [s] and its width in bytes.
    An empty string gives [(RuneError, 0)]; an encoding that is invalid
    (truncated, overlong, a surrogate, above U+10FFFF) gives
    [(RuneError, 1)].  The accepted ranges of the second byte are those of
    Go's [acceptRanges] table. *)
Definition DecodeRuneInString (s : string) : rune * nat :=
  match s with
  | EmptyString => (RuneError, 0%nat)
  | String c0 s1 =>
    let b0 := byte_of c0 in
    if b0 <? RuneSelf then (b0, 1%nat)
    else match s1 with
    | EmptyString => (RuneError, 1%nat)
    | String c1 s2 =>
      let b1 := byte_of c1 in
      if in_range 0xC2 0xDF b0 then
        if is_cont b1
        then (Z.lor (Z.shiftl (Z.land b0 0x1F) 6) (Z.land b1 0x3F), 2%nat)
        else (RuneError, 1%nat)
      else match s2 with
      | EmptyString => (RuneError, 1%nat)
      | String c2 s3 =>
        let b2 := byte_of c2 in
        let lo1 := if b0 =? 0xE0 then 0xA0 else if b0 =? 0xF0 then 0x90 else 0x80 in
        let hi1 := if b0 =? 0xED then 0x9F else if b0 =? 0xF4 then 0x8F else 0xBF in
        if in_range 0xE0 0xEF b0 then
          if in_range lo1 hi1 b1 && is_cont b2
          then (Z.lor (Z.lor (Z.shiftl (Z.land b0 0x0F) 12)
                             (Z.shiftl (Z.land b1 0x3F) 6))
                      (Z.land b2 0x3F), 3%nat)
          else (RuneError, 1%nat)
        else match s3 with
        | EmptyString => (RuneError, 1%nat)
        | String c3 _ =>
          let b3 := byte_of c3 in
          if in_range 0xF0 0xF4 b0 && in_range lo1 hi1 b1
             && is_cont b2 && is_cont b3
          then (Z.lor (Z.lor (Z.lor (Z.shiftl (Z.land b0 0x07) 18)
                                    (Z.shiftl (Z.land b1 0x3F) 12))
                             (Z.shiftl (Z.land b2 0x3F) 6))
                      (Z.land b3 0x3F), 4%nat)
          else (RuneError, 1%nat)
        end
      end
    end
  end.

(** The bytes of [s] from index [i] on, [s[i:]]. *)
Fixpoint string_drop (i : nat) (s : string) : string :=
  match i, s with
  | O, _ => s
  | S i', String _ s' => string_drop i' s'
  | S _, EmptyString => EmptyString
  end.

(** The first [i] bytes of [s], [s[:i]]. *)
Fixpoint string_take (i : nat) (s : string) : string :=
  match i, s with
  | S i', String c s' => String c (string_take i' s')
  | _, _ => EmptyString
  end.

Definition string_get (i : nat) (s : string) : Z :=
  match string_drop i s with
  | String c _ => byte_of c
  | EmptyString => 0
  end.

(** The backwards search of [DecodeLastRuneInString]: from index [start],
    going down to [lim], the first index holding a rune-start byte;
    [None] when the loop runs past [lim]. *)
Fixpoint find_start (s : string) (lim : nat) (start : nat) (steps : nat) : option nat :=
  match steps with
  | O => None
  | S steps' =>
    if (start <? lim)%nat then None
    else if RuneStart (string_get start s) then Some start
    else match start with
         | O => None
         | S start' => find_start s lim start' steps'
         end
  end.

(** [DecodeLastRuneInString]: the last rune of [s] and its width. *)
Definition DecodeLastRuneInString (s : string) : rune * nat :=
  let end_ := String.length s in
  match end_ with
  | O => (RuneError, 0%nat)
  | S last =>
    let r := string_get last s in
    if r <? RuneSelf then (r, 1%nat)
    else
      let lim := (end_ - UTFMax)%nat in
      let start :=
        match last with
        | O => 0%nat
        | S start0 =>
          match find_start s lim start0 UTFMax with
          | Some i => i
          | None => (lim - 1)%nat
          end
        end in
      let '(r', size) := DecodeRuneInString (string_drop start s) in
      if (start + size =? end_)%nat then (r', size) else (RuneError, 1%nat)
  end.

End utf8.

Module unicode.

(** [unicode.IsSpace]: the Latin-1 cases are listed by the function itself,
    the others are the [White_Space] range table. *)
Definition IsSpace (r : utf8.rune) : bool :=
  if r <=? 0xFF then
    (r =? 0x09) || (r =? 0x0A) || (r =? 0x0B) || (r =? 0x0C) || (r =? 0x0D)
    || (r =? 0x20) || (r =? 0x85) || (r =? 0xA0)
  else
    (r =? 0x1680) || utf8.in_range 0x2000 0x200A r
    || utf8.in_range 0x2028 0x2029 r || (r =? 0x202F) || (r =? 0x205F)
    || (r =? 0x3000).

End unicode.

Module gostrings.
Import utf8.

Definition TAB : ascii := "009"%char.
Definition NL : ascii := "010"%char.
Definition SP : ascii := " "%char.
Definition COLON : ascii := ":"%char.

(** [indexFunc(s, f, false)] followed by the slice [s[i:]]: runes are
    decoded from the left until one does not satisfy [f].  [skip] counts
    the bytes of the current rune that remain to be passed. *)
Fixpoint TrimLeftFunc_from (f : rune -> bool) (skip : nat) (s : string) : string :=
  match s with
  | EmptyString => EmptyString
  | String _ s' =>
    match skip with
    | S k => TrimLeftFunc_from f k s'
    | O =>
      let '(r, w) := DecodeRuneInString s in
      if f r then TrimLeftFunc_from f (w - 1) s' else s
    end
  end.

Definition TrimLeftFunc (s : string) (f : rune -> bool) : string :=
  TrimLeftFunc_from f 0 s.

(** [lastIndexFunc(s, f, truth)], started at index [i]: runes are decoded
    from the right; the index of the last rune [r] with [f r = truth]. *)
Fixpoint lastIndexFunc (s : string) (f : rune -> bool) (truth : bool)
    (i : nat) (fuel : nat) : option nat :=
  match fuel with
  | O => None
  | S fuel' =>
    match i with
    | O => None
    | S _ =>
      let '(r, size) := DecodeLastRuneInString (string_take i s) in
      let i' := (i - size)%nat in
      if Bool.eqb (f r) truth then Some i'
      else lastIndexFunc s f truth i' fuel'
    end
  end.

Definition TrimRightFunc (s : string) (f : rune -> bool) : string :=
  match lastIndexFunc s f false (String.length s) (String.length s) with
  | Some i =>
    if RuneSelf <=? string_get i s
    then let '(_, wid) := DecodeRuneInString (string_drop i s) in
         string_take (i + wid) s
    else string_take (i + 1) s
  | None => EmptyString
  end.

Definition TrimFunc (s : string) (f : rune -> bool) : string :=
  TrimRightFunc (TrimLeftFunc s f) f.

(** [strings.TrimSpace].  Go's fast path for ASCII input computes the same
    string as [TrimFunc(s, unicode.IsSpace)], to which it falls back. *)
Definition TrimSpace (s : string) : string := TrimFunc s unicode.IsSpace.

Fixpoint mem_byte (c : ascii) (cutset : string) : bool :=
  match cutset with
  | EmptyString => false
  | String d cs => Ascii.eqb c d || mem_byte c cs
  end.

(** [strings.TrimLeft] for a cutset of ASCII bytes (Go's [trimLeftByte]
    and [trimLeftASCII]); both call sites pass such a cutset. *)
Fixpoint TrimLeft (s : string) (cutset : string) : string :=
  match s with
  | EmptyString => EmptyString
  | String c s' => if mem_byte c cutset then TrimLeft s' cutset else s
  end.

(** [strings.TrimRight] for a cutset of ASCII bytes. *)
Fixpoint TrimRight (s : string) (cutset : string) : string :=
  match s with
  | EmptyString => EmptyString
  | String c s' =>
    match TrimRight s' cutset with
    | EmptyString => if mem_byte c cutset then EmptyString else String c EmptyString
    | t => String c t
    end
  end.

(** [strings.Split] for a separator of one byte: the pieces between the
    occurrences of [sep]; never the empty list. *)
Fixpoint Split (s : string) (sep : ascii) : list string :=
  match s with
  | EmptyString => [EmptyString]
  | String c s' =>
    if Ascii.eqb c sep then EmptyString :: Split s' sep
    else match Split s' sep with
         | p :: ps => String c p :: ps
         | [] => [String c EmptyString]
         end
  end.

(** [strings.Cut]-like search for the first occurrence of [sep]. *)
Fixpoint cut_first (s : string) (sep : ascii) : option (string * string) :=
  match s with
  | EmptyString => None
  | String c s' =>
    if Ascii.eqb c sep then Some (EmptyString, s')
    else match cut_first s' sep with
         | Some (a, b) => Some (String c a, b)
         | None => None
         end
  end.

(** [strings.SplitN(s, sep, 2)] for a separator of one byte: the text
    before and after the first [sep], or [s] alone when [sep] is absent. *)
Definition SplitN_2 (s : string) (sep : ascii) : list string :=
  match cut_first s sep with
  | Some (a, b) => [a; b]
  | None => [s]
  end.

(** The loop [for _, r := range rawLine { if r == '\t' { indent++ } else
    { break } }]: the rune U+0009 is decoded from the byte 0x09 only. *)
Fixpoint leading_tabs (s : string) : nat :=
  match s with
  | String c s' => if Ascii.eqb c TAB then S (leading_tabs s') else O
  | EmptyString => O
  end.

(** Substring test, [strings.Contains]. *)
Fixpoint has_prefix (p s : string) : bool :=
  match p, s with
  | EmptyString, _ => true
  | String a p', String b s' => Ascii.eqb a b && has_prefix p' s'
  | String _ _, EmptyString => false
  end.

Fixpoint Contains (s substr : string) : bool :=
  has_prefix substr s ||
  match s with
  | EmptyString => false
  | String _ s' => Contains s' substr
  end.

Fixpoint Join (elems : list string) (sep : string) : string :=
  match elems with
  | [] => EmptyString
  | [e] => e
  | e :: es => e +:+ sep +:+ Join es sep
  end.

End gostrings.

(* ===================================================================== *)
(** * Go's [strconv] and [fmt] packages: scanning an integer *)
(* ===================================================================== *)

Module strconv.
Import utf8.

Inductive Err := ErrSyntax | ErrRange.

(** [*strconv.NumError]. *)
Record NumError := { Func : string; Num : string; NumErr : Err }.

Definition maxUint64 : Z := 2 ^ 64 - 1.

(** [lower(c)], that is [c | ('x' - 'X')]. *)
Definition lower (c : Z) : Z := Z.lor c 0x20.

(** [underscoreOK]: underscores stand only between digits, or between a
    base prefix and a digit.  [saw] is the previous character class:
    [0] for the start of the number, [1] for a digit or base prefix,
    [2] for an underscore, [3] for anything else. *)
Fixpoint underscoreOK_loop (hex : bool) (saw : nat) (s : string) : bool :=
  match s with
  | EmptyString => negb (saw =? 2)%nat
  | String c s' =>
    let b := byte_of c in
    if in_range 48 57 b || (hex && in_range 97 102 (lower b))
    then underscoreOK_loop hex 1 s'
    else if b =? 95
    then (if (saw =? 1)%nat then underscoreOK_loop hex 2 s' else false)
    else if (saw =? 2)%nat then false
    else underscoreOK_loop hex 3 s'
  end.

Definition underscoreOK (s : string) : bool :=
  let s :=
    match s with
    | String c s' => if (byte_of c =? 45) || (byte_of c =? 43) then s' else s
    | EmptyString => s
    end in
  match s with
  | String c0 (String c1 s2) =>
    let l := lower (byte_of c1) in
    if (byte_of c0 =? 48) && ((l =? 98) || (l =? 111) || (l =? 120))
    then underscoreOK_loop (l =? 120) 1 s2
    else underscoreOK_loop false 0 s
  | _ => underscoreOK_loop false 0 s
  end.

(** The digit loop of [ParseUint]: [n] is the value so far, [None] is a
    syntax error in the digits, [Some (inl _)] overflow. *)
Fixpoint ParseUint_loop (base0 : bool) (base cutoff maxVal : Z) (n : Z)
    (underscores : bool) (s : string) : option (unit + (Z * bool)) :=
  match s with
  | EmptyString => Some (inr (n, underscores))
  | String c s' =>
    let b := byte_of c in
    if (b =? 95) && base0
    then ParseUint_loop base0 base cutoff maxVal n true s'
    else
      let d :=
        if in_range 48 57 b then Some (b - 48)
        else if in_range 97 122 (lower b) then Some (lower b - 97 + 10)
        else None in
      match d with
      | None => None
      | Some d =>
        if base <=? d then None
        else if cutoff <=? n then Some (inl tt)
        else
          let n1 := n * base + d in
          if maxVal <? n1 then Some (inl tt)
          else ParseUint_loop base0 base cutoff maxVal n1 underscores s'
      end
  end.

Definition syntaxError (fn str : string) : NumError :=
  {| Func := fn; Num := str; NumErr := ErrSyntax |}.
Definition rangeError (fn str : string) : NumError :=
  {| Func := fn; Num := str; NumErr := ErrRange |}.

(** [strconv.ParseUint(s, base, bitSize)] for [base] 0 or 2..36 and
    [bitSize] in 1..64 (the callers of this development pass 0 and 64). *)
Definition ParseUint (s0 : string) (base : Z) (bitSize : Z) : NumError + Z :=
  let fn := "ParseUint" in
  match s0 with
  | EmptyString => inl (syntaxError fn s0)
  | String c0 rest =>
    let base0 := base =? 0 in
    let '(base, s) :=
      if base0 then
        if byte_of c0 =? 48 then
          match rest with
          | String c1 (String c2 r2) =>
            let l := lower (byte_of c1) in
            if l =? 98 then (2, String c2 r2)
            else if l =? 111 then (8, String c2 r2)
            else if l =? 120 then (16, String c2 r2)
            else (8, rest)
          | _ => (8, rest)
          end
        else (10, s0)
      else (base, s0) in
    let cutoff := maxUint64 / base + 1 in
    let maxVal := 2 ^ bitSize - 1 in
    match ParseUint_loop base0 base cutoff maxVal 0 false s with
    | None => inl (syntaxError fn s0)
    | Some (inl _) => inl (rangeError fn s0)
    | Some (inr (n, underscores)) =>
      if underscores && negb (underscoreOK s0)
      then inl (syntaxError fn s0)
      else inr n
    end
  end.

(** [strconv.ParseInt(s, base, bitSize)]. *)
Definition ParseInt (s0 : string) (base : Z) (bitSize : Z) : NumError + Z :=
  let fn := "ParseInt" in
  match s0 with
  | EmptyString => inl (syntaxError fn s0)
  | String c0 rest =>
    let '(neg, s) :=
      if byte_of c0 =? 43 then (false, rest)
      else if byte_of c0 =? 45 then (true, rest)
      else (false, s0) in
    let cutoff := 2 ^ (bitSize - 1) in
    match ParseUint s base bitSize with
    | inl e =>
      match NumErr e with
      | ErrSyntax => inl (syntaxError fn s0)
      | ErrRange => inl (rangeError fn s0)
      end
    | inr un =>
      if negb neg && (cutoff <=? un) then inl (rangeError fn s0)
      else if neg && (cutoff <? un) then inl (rangeError fn s0)
      else inr (if neg then - un else un)
    end
  end.

End strconv.

Module fmt.
Import utf8 gostrings.

(** The errors a scan of one integer can end with: [io.EOF] when the input
    ends where the number or its first digit is expected, the scanner's
    "expected integer", a [*strconv.NumError], and the overflow errors. *)
Inductive ScanError :=
| ErrEOF
| ErrExpectedInteger
| ErrNum (e : strconv.NumError)
| ErrIntOverflow (tok : string)
| ErrUintOverflow (tok : string).

Definition decimalDigits : string := "0123456789_".
Definition binaryDigits : string := "01_".
Definition octalDigits : string := "01234567_".
Definition hexadecimalDigits : string := "0123456789aAbBcCdDeEfF_".

(** [s.SkipSpace()] of a scanner made by [Sscan], for which a newline
    counts as space: every leading space rune is passed. *)
Definition SkipSpace (s : string) : string := TrimLeftFunc s unicode.IsSpace.

(** [s.accept(ok)]: the next byte is taken into the token when it is one of
    [ok].  The scanner state is the token read so far and the input left. *)
Definition accept (ok : string) (st : string * string) : bool * (string * string) :=
  match snd st with
  | String c rest =>
    if mem_byte c ok then (true, (fst st +:+ String c EmptyString, rest))
    else (false, st)
  | EmptyString => (false, st)
  end.

Definition peek (ok : string) (st : string * string) : bool :=
  match snd st with
  | String c _ => mem_byte c ok
  | EmptyString => false
  end.

(** [s.scanBasePrefix()]: the digit set of the number that follows and
    whether a digit (a leading zero) has been read. *)
Definition scanBasePrefix (st : string * string) : string * bool * (string * string) :=
  if negb (peek "0" st) then (decimalDigits, false, st)
  else
    let st := snd (accept "0" st) in
    if peek "bB" st then (binaryDigits, true, snd (accept "bB" st))
    else if peek "oO" st then (octalDigits, true, snd (accept "oO" st))
    else if peek "xX" st then (hexadecimalDigits, true, snd (accept "xX" st))
    else (octalDigits, true, st).

(** The loop [for s.accept(digits) {}]. *)
Fixpoint accept_all (digits : string) (tok : string) (input : string) : string * string :=
  match input with
  | String c rest =>
    if mem_byte c digits
    then accept_all digits (tok +:+ String c EmptyString) rest
    else (tok, input)
  | EmptyString => (tok, input)
  end.

(** [s.scanNumber(digits, haveDigits)]: the token. *)
Definition scanNumber (digits : string) (haveDigits : bool) (st : string * string)
    : ScanError + string :=
  if haveDigits then inr (fst (accept_all digits (fst st) (snd st)))
  else
    match snd st with
    | EmptyString => inl ErrEOF
    | String _ _ =>
      let '(ok, st') := accept digits st in
      if ok then inr (fst (accept_all digits (fst st') (snd st')))
      else inl ErrExpectedInteger
    end.

(** [s.scanInt('v', bitSize)] on the text [input]. *)
Definition scanInt (input : string) (bitSize : Z) : ScanError + Z :=
  let s := SkipSpace input in
  match s with
  | EmptyString => inl ErrEOF
  | String _ _ =>
    let st := snd (accept "+-" (EmptyString, s)) in
    let '(digits, haveDigits, st) := scanBasePrefix st in
    match scanNumber digits haveDigits st with
    | inl e => inl e
    | inr tok =>
      match strconv.ParseInt tok 0 64 with
      | inl e => inl (ErrNum e)
      | inr i =>
        if (- 2 ^ (bitSize - 1) <=? i) && (i <? 2 ^ (bitSize - 1))
        then inr i else inl (ErrIntOverflow tok)
      end
    end
  end.

(** [s.scanUint('v', bitSize)] on the text [input]. *)
Definition scanUint (input : string) (bitSize : Z) : ScanError + Z :=
  let s := SkipSpace input in
  match s with
  | EmptyString => inl ErrEOF
  | String _ _ =>
    let '(digits, haveDigits, st) := scanBasePrefix (EmptyString, s) in
    match scanNumber digits haveDigits st with
    | inl e => inl e
    | inr tok =>
      match strconv.ParseUint tok 0 64 with
      | inl e => inl (ErrNum e)
      | inr i =>
        if i <? 2 ^ bitSize then inr i else inl (ErrUintOverflow tok)
      end
    end
  end.

(** The width of Go's [int]. *)
Definition intBits : Z := 64.

(** [fmt.Sscan(val, &x)] for [x] of type [int]: text after the number is
    left unread and is no error. *)
Definition Sscan_int (val : string) : ScanError + Z := scanInt val intBits.

(** [fmt.Sscan(val, &x)] for [x] of type [uint64]. *)
Definition Sscan_uint64 (val : string) : ScanError + Z := scanUint val 64.

Definition DQ : string := String "034"%char EmptyString.

(** The text of a scan error.  The quoted number of a [NumError] is a
    token of digits, letters, signs and underscores, which [strconv.Quote]
    leaves as it is between two double quotes. *)
Definition ScanError_Error (e : ScanError) : string :=
  match e with
  | ErrEOF => "EOF"
  | ErrExpectedInteger => "expected integer"
  | ErrNum e =>
    "strconv." +:+ strconv.Func e +:+ ": parsing " +:+ DQ +:+ strconv.Num e +:+ DQ
    +:+ ": " +:+
    match strconv.NumErr e with
    | strconv.ErrSyntax => "invalid syntax"
    | strconv.ErrRange => "value out of range"
    end
  | ErrIntOverflow tok => "integer overflow on token " +:+ tok
  | ErrUintOverflow tok => "unsigned integer overflow on token " +:+ tok
  end.

End fmt.

Import gostrings.

(* ===================================================================== *)
(** * The data model of [zdb.go] *)
(* ===================================================================== *)

Set Warnings "-register-all".

(** [type ZDBPoolChild struct].  A [nil] property map reads as the empty
    map; [parseProp] allocates it before its first write. *)
Inductive ZDBPoolChild := mkZDBPoolChild {
  Type_ : string;
  ID : Z;
  GUID : Z;
  Path : string;
  WholeDisk : Z;
  MetaslabArray : Z;
  MetaslabShift : Z;
  Ashift : Z;
  Asize : Z;
  IsLog : Z;
  CreateTXG : Z;
  Properties : gmap string string;
  Children : list ZDBPoolChild
}.

(** [type ZDBPool struct]. *)
Record ZDBPool := mkZDBPool {
  PoolName : string;
  PoolGUID : string;
  PoolVersion : string;
  PoolChildren : list ZDBPoolChild
}.

(** The zero value [ZDBPoolChild{}]. *)
Definition zeroChild : ZDBPoolChild :=
  mkZDBPoolChild "" 0 0 "" 0 0 0 0 0 0 0 ∅ [].

Definition set_Type (v : string) (c : ZDBPoolChild) : ZDBPoolChild :=
  mkZDBPoolChild v (ID c) (GUID c) (Path c) (WholeDisk c) (MetaslabArray c)
    (MetaslabShift c) (Ashift c) (Asize c) (IsLog c) (CreateTXG c)
    (Properties c) (Children c).
Definition set_ID (v : Z) (c : ZDBPoolChild) : ZDBPoolChild :=
  mkZDBPoolChild (Type_ c) v (GUID c) (Path c) (WholeDisk c) (MetaslabArray c)
    (MetaslabShift c) (Ashift c) (Asize c) (IsLog c) (CreateTXG c)
    (Properties c) (Children c).
Definition set_GUID (v : Z) (c : ZDBPoolChild) : ZDBPoolChild :=
  mkZDBPoolChild (Type_ c) (ID c) v (Path c) (WholeDisk c) (MetaslabArray c)
    (MetaslabShift c) (Ashift c) (Asize c) (IsLog c) (CreateTXG c)
    (Properties c) (Children c).
Definition set_Path (v : string) (c : ZDBPoolChild) : ZDBPoolChild :=
  mkZDBPoolChild (Type_ c) (ID c) (GUID c) v (WholeDisk c) (MetaslabArray c)
    (MetaslabShift c) (Ashift c) (Asize c) (IsLog c) (CreateTXG c)
    (Properties c) (Children c).
Definition set_WholeDisk (v : Z) (c : ZDBPoolChild) : ZDBPoolChild :=
  mkZDBPoolChild (Type_ c) (ID c) (GUID c) (Path c) v (MetaslabArray c)
    (MetaslabShift c) (Ashift c) (Asize c) (IsLog c) (CreateTXG c)
    (Properties c) (Children c).
Definition set_MetaslabArray (v : Z) (c : ZDBPoolChild) : ZDBPoolChild :=
  mkZDBPoolChild (Type_ c) (ID c) (GUID c) (Path c) (WholeDisk c) v
    (MetaslabShift c) (Ashift c) (Asize c) (IsLog c) (CreateTXG c)
    (Properties c) (Children c).
Definition set_MetaslabShift (v : Z) (c : ZDBPoolChild) : ZDBPoolChild :=
  mkZDBPoolChild (Type_ c) (ID c) (GUID c) (Path c) (WholeDisk c)
    (MetaslabArray c) v (Ashift c) (Asize c) (IsLog c) (CreateTXG c)
    (Properties c) (Children c).
Definition set_Ashift (v : Z) (c : ZDBPoolChild) : ZDBPoolChild :=
  mkZDBPoolChild (Type_ c) (ID c) (GUID c) (Path c) (WholeDisk c)
    (MetaslabArray c) (MetaslabShift c) v (Asize c) (IsLog c) (CreateTXG c)
    (Properties c) (Children c).
Definition set_Asize (v : Z) (c : ZDBPoolChild) : ZDBPoolChild :=
  mkZDBPoolChild (Type_ c) (ID c) (GUID c) (Path c) (WholeDisk c)
    (MetaslabArray c) (MetaslabShift c) (Ashift c) v (IsLog c) (CreateTXG c)
    (Properties c) (Children c).
Definition set_IsLog (v : Z) (c : ZDBPoolChild) : ZDBPoolChild :=
  mkZDBPoolChild (Type_ c) (ID c) (GUID c) (Path c) (WholeDisk c)
    (MetaslabArray c) (MetaslabShift c) (Ashift c) (Asize c) v (CreateTXG c)
    (Properties c) (Children c).
Definition set_CreateTXG (v : Z) (c : ZDBPoolChild) : ZDBPoolChild :=
  mkZDBPoolChild (Type_ c) (ID c) (GUID c) (Path c) (WholeDisk c)
    (MetaslabArray c) (MetaslabShift c) (Ashift c) (Asize c) (IsLog c) v
    (Properties c) (Children c).
Definition set_Properties (v : gmap string string) (c : ZDBPoolChild) : ZDBPoolChild :=
  mkZDBPoolChild (Type_ c) (ID c) (GUID c) (Path c) (WholeDisk c)
    (MetaslabArray c) (MetaslabShift c) (Ashift c) (Asize c) (IsLog c)
    (CreateTXG c) v (Children c).
Definition set_Children (v : list ZDBPoolChild) (c : ZDBPoolChild) : ZDBPoolChild :=
  mkZDBPoolChild (Type_ c) (ID c) (GUID c) (Path c) (WholeDisk c)
    (MetaslabArray c) (MetaslabShift c) (Ashift c) (Asize c) (IsLog c)
    (CreateTXG c) (Properties c) v.

(** The errors [GetPool] returns.  [CmdError] is the [*CmdError] of
    [RunBytes]; [ErrNoOutput] is [fmt.Errorf("no output from zdb for pool
    %s", name)]; [ErrParseProp field cause] is [fmt.Errorf("failed to parse
    <field>: %w", err)].  [PanicInvalidPointer] stands for the use of a
    pointer that leads to no node, which the code never does
    ([run_lines_no_panic] below). *)
Inductive error :=
| CmdError (cmd : string) (args : list string) (exitErr : string)
           (stderr : string) (combined : string)
| ErrNoOutput (name : string)
| ErrParseProp (field : string) (cause : fmt.ScanError)
| PanicInvalidPointer.

(** [err.Error()]. *)
Definition Error (e : error) : string :=
  match e with
  | CmdError _ _ exitErr stderr combined =>
    combined +:+ " failed: " +:+ exitErr +:+ " (stderr: " +:+ TrimSpace stderr +:+ ")"
  | ErrNoOutput name => "no output from zdb for pool " +:+ name
  | ErrParseProp field cause =>
    "failed to parse " +:+ field +:+ ": " +:+ fmt.ScanError_Error cause
  | PanicInvalidPointer => "invalid memory address or nil pointer dereference"
  end.

(* ===================================================================== *)
(** * [parseLine] and [parseProp] *)
(* ===================================================================== *)

(** [func (p *ZDBPool) parseLine(prop, val string)]. *)
Definition parseLine (p : ZDBPool) (prop val : string) : ZDBPool :=
  if String.eqb prop "version"
  then mkZDBPool (PoolName p) (PoolGUID p) val (PoolChildren p)
  else if String.eqb prop "name"
  then mkZDBPool val (PoolGUID p) (PoolVersion p) (PoolChildren p)
  else p.

(** One case of the [switch] of [parseProp]: scan [val] into a field. *)
Definition scan_into (field : string) (scan : string -> fmt.ScanError + Z)
    (set : Z -> ZDBPoolChild -> ZDBPoolChild) (val : string) (c : ZDBPoolChild)
    : ZDBPoolChild * option error :=
  match scan val with
  | inl e => (c, Some (ErrParseProp field e))
  | inr v => (set v c, None)
  end.

(** [func (c *ZDBPoolChild) parseProp(prop, val string) error]: the
    receiver after the call and the error returned.  The property map is
    written before the conversion is tried; a failed [Sscan] leaves the
    typed field as it was. *)
Definition parseProp (c : ZDBPoolChild) (prop val : string)
    : ZDBPoolChild * option error :=
  let c := set_Properties (<[prop := val]> (Properties c)) c in
  if String.eqb prop "type" then (set_Type val c, None)
  else if String.eqb prop "id" then scan_into "id" fmt.Sscan_int set_ID val c
  else if String.eqb prop "guid" then scan_into "guid" fmt.Sscan_uint64 set_GUID val c
  else if String.eqb prop "path" then (set_Path val c, None)
  else if String.eqb prop "whole_disk"
  then scan_into "whole_disk" fmt.Sscan_int set_WholeDisk val c
  else if String.eqb prop "metaslab_array"
  then scan_into "metaslab_array" fmt.Sscan_int set_MetaslabArray val c
  else if String.eqb prop "metaslab_shift"
  then scan_into "metaslab_shift" fmt.Sscan_int set_MetaslabShift val c
  else if String.eqb prop "ashift" then scan_into "ashift" fmt.Sscan_int set_Ashift val c
  else if String.eqb prop "asize" then scan_into "asize" fmt.Sscan_uint64 set_Asize val c
  else if String.eqb prop "is_log" then scan_into "is_log" fmt.Sscan_int set_IsLog val c
  else if String.eqb prop "create_txg"
  then scan_into "create_txg" fmt.Sscan_uint64 set_CreateTXG val c
  else (c, None).

(** The fields whose value [parseProp] converts, with the scanner each one
    uses. *)
Definition typed_fields : list (string * (string -> fmt.ScanError + Z)) :=
  [ ("id", fmt.Sscan_int); ("guid", fmt.Sscan_uint64);
    ("whole_disk", fmt.Sscan_int); ("metaslab_array", fmt.Sscan_int);
    ("metaslab_shift", fmt.Sscan_int); ("ashift", fmt.Sscan_int);
    ("asize", fmt.Sscan_uint64); ("is_log", fmt.Sscan_int);
    ("create_txg", fmt.Sscan_uint64) ].

(* ===================================================================== *)
(** * The loop of [GetPool]: a stack of pointers into the tree *)
(* ===================================================================== *)

(** A [*ZDBPoolChild] that points into the tree of the pool under
    construction is the list of child indices that leads to the node:
    [&pool.Children[i]] is [[i]], and [&parent.Children[j]] is the pointer
    of [parent] followed by [j].

    In Go an [append] may move a slice to a new array, after which a
    pointer into the old array no longer reaches the tree.  The loop appends
    to the children of a node only while that node is on top of the stack,
    and to the children of the pool only while the stack is empty, so no
    frame ever points into the slice being extended: the pointers of the
    stack are a chain down the last child of each level ([stack_ok] below),
    and an index path denotes the same node as the Go pointer. *)
Definition ptr := list nat.

(** The node a pointer leads to. *)
Fixpoint deref (cs : list ZDBPoolChild) (p : ptr) : option ZDBPoolChild :=
  match p with
  | [] => None
  | i :: p' =>
    match cs !! i with
    | None => None
    | Some c => match p' with [] => Some c | _ :: _ => deref (Children c) p' end
    end
  end.

(** A write through a pointer: the tree with the node at [p] replaced. *)
Fixpoint store (cs : list ZDBPoolChild) (p : ptr) (v : ZDBPoolChild)
    : list ZDBPoolChild :=
  match p with
  | [] => cs
  | i :: p' =>
    match cs !! i with
    | None => cs
    | Some c =>
      <[i := match p' with
             | [] => v
             | _ :: _ => set_Children (store (Children c) p' v) c
             end]> cs
    end
  end.

(** [type childFrame struct { child *ZDBPoolChild; indent int }]. *)
Record childFrame := mkFrame { child : ptr; indent : nat }.

(** The variables of the loop: the pool and the stack.  The head of the
    list is the top of the stack, [stack[len(stack)-1]]. *)
Record loopState := mkLoop { pool : ZDBPool; stack : list childFrame }.

Definition set_PoolChildren (cs : list ZDBPoolChild) (p : ZDBPool) : ZDBPool :=
  mkZDBPool (PoolName p) (PoolGUID p) (PoolVersion p) cs.

(** What the loop body reads off a raw line: [None] when the line is
    skipped (blank, or without a colon), else the indent, the property name
    and the value. *)
Definition scan_line (rawLine : string) : option (nat * string * string) :=
  if String.eqb (TrimSpace rawLine) "" then None
  else
    let indent := leading_tabs rawLine in
    let trimmed := TrimLeft rawLine (String TAB (String SP EmptyString)) in
    match SplitN_2 trimmed COLON with
    | [p0; p1] => Some (indent, TrimSpace p0, TrimSpace p1)
    | _ => None
    end.

(** [for len(stack) > 0 && indent <= stack[len(stack)-1].indent
    { stack = stack[:len(stack)-1] }]. *)
Fixpoint pop_frames (indent_ : nat) (stack_ : list childFrame) : list childFrame :=
  match stack_ with
  | fr :: rest => if (indent_ <=? indent fr)%nat then pop_frames indent_ rest else stack_
  | [] => []
  end.

(** The node a [type] line creates. *)
Definition newChild (val : string) : ZDBPoolChild :=
  set_Properties {[ "type" := val ]} (set_Type val zeroChild).

(** The loop body after the line has been read. *)
Definition handle_line (st : loopState) (indent_ : nat) (prop val : string)
    : error + loopState :=
  if match stack st with [] => true | _ => false end
     && (String.eqb prop "version" || String.eqb prop "name")
  then inr (mkLoop (parseLine (pool st) prop val) (stack st))
  else if String.eqb prop "type" then
    let stack_ := pop_frames indent_ (stack st) in
    match stack_ with
    | [] =>
      let cs := PoolChildren (pool st) ++ [newChild val] in
      inr (mkLoop (set_PoolChildren cs (pool st))
                  [mkFrame [(length cs - 1)%nat] indent_])
    | fr :: _ =>
      match deref (PoolChildren (pool st)) (child fr) with
      | None => inl PanicInvalidPointer
      | Some parent =>
        let kids := Children parent ++ [newChild val] in
        let cs := store (PoolChildren (pool st)) (child fr) (set_Children kids parent) in
        inr (mkLoop (set_PoolChildren cs (pool st))
                    (mkFrame (child fr ++ [(length kids - 1)%nat]) indent_ :: stack_))
      end
    end
  else
    match stack st with
    | [] => inr st
    | fr :: _ =>
      match deref (PoolChildren (pool st)) (child fr) with
      | None => inl PanicInvalidPointer
      | Some current =>
        match parseProp current prop val with
        | (_, Some err) => inl err
        | (current', None) =>
          inr (mkLoop (set_PoolChildren
                         (store (PoolChildren (pool st)) (child fr) current')
                         (pool st))
                      (stack st))
        end
      end
    end.

(** One iteration of [for _, rawLine := range lines]. *)
Definition loop_body (st : loopState) (rawLine : string) : error + loopState :=
  match scan_line rawLine with
  | None => inr st
  | Some (indent_, prop, val) => handle_line st indent_ prop val
  end.

(** The whole loop; the first error ends it. *)
Fixpoint run_lines (st : loopState) (lines : list string) : error + loopState :=
  match lines with
  | [] => inr st
  | rawLine :: rest =>
    match loop_body st rawLine with
    | inl e => inl e
    | inr st' => run_lines st' rest
    end
  end.

(** The pool and the stack before the first line. *)
Definition init_loop (name currentGUID : string) : loopState :=
  mkLoop (mkZDBPool name currentGUID "" []) [].

(** Lines 160 to 230 of [GetPool]: the record built from the lines of the
    tool's output. *)
Definition parse_lines (name currentGUID : string) (lines : list string)
    : error + ZDBPool :=
  match run_lines (init_loop name currentGUID) lines with
  | inl e => inl e
  | inr st => inr (pool st)
  end.

(* ===================================================================== *)
(** * The command runner, the clock and the cache *)
(* ===================================================================== *)

(** What one run of an external command gives: the bytes written to the two
    streams, the error of [Runner.Run] if any, and the time the run took. *)
Record RunOutcome := mkOutcome {
  out_stdout : string;
  out_stderr : string;
  out_err : option string;
  out_elapsed : Z
}.

(** [type Runner interface]: the collaborator that runs a command.  Its
    outcome may depend on the instant of the call. *)
Definition Runner := Z -> string -> list string -> RunOutcome.

(** [type Cmd struct], with its runner set ([withDefaults] puts the
    local runner in place of a [nil] one). *)
Record Cmd := mkCmd { Bin : string; Sudo : bool; CmdRunner : Runner }.

(** [type zdb struct]. *)
Record zdb := mkZdb { cmd : Cmd; cacheTTL : Z }.

(** [type zdbCacheEntry struct]. *)
Record zdbCacheEntry := mkEntry {
  entry_pool : ZDBPool;
  entry_guid : string;
  expiry : Z
}.

(** The state outside a call: the package variable [zdbCache], the clock
    read by [time.Now()], and the list of the external commands run so far
    (name and arguments, oldest first).  The clock moves while a command
    runs; [GetPool] reads it before the run, for the expiry test, and after
    the parse, for the new expiry. *)
Record World := mkWorld {
  zdbCache : gmap string zdbCacheEntry;
  now : Z;
  CallHistory : list (string * list string)
}.

Definition Second : Z := 1000000000.
Definition Minute : Z := 60 * Second.

(** [var zdbArgs = []string{"-C"}]. *)
Definition zdbArgs : list string := ["-C"].

(** [func (c Cmd) RunBytes(ctx, stdin, args...)]: the two streams or a
    [*CmdError]; the run is recorded and the clock moves on. *)
Definition RunBytes (c : Cmd) (args : list string) (w : World)
    : (error + (string * string)) * World :=
  let name := Bin c in
  let '(name, args) := if Sudo c then ("sudo", Bin c :: args) else (name, args) in
  let combined := name +:+ " " +:+ Join args " " in
  let o := CmdRunner c (now w) name args in
  let w' := mkWorld (zdbCache w) (now w + out_elapsed o)
                    (CallHistory w ++ [(name, args)]) in
  match out_err o with
  | Some e => (inl (CmdError name args e (out_stderr o) combined), w')
  | None => (inr (out_stdout o, out_stderr o), w')
  end.

(** [func (z *zdb) zdbOutput(ctx, args...)]: the lines of the output, none
    when the output is empty once its final newlines are cut. *)
Definition zdbOutput (z : zdb) (args : list string) (w : World)
    : (error + list string) * World :=
  match RunBytes (cmd z) args w with
  | (inl err, w') => (inl err, w')
  | (inr (stdout, _), w') =>
    let text := TrimRight stdout (String NL EmptyString) in
    if String.eqb text "" then (inr [], w')
    else (inr (Split text NL), w')
  end.

(** The key under which [GetPool] caches a pool. *)
Definition cacheKey (name currentGUID : string) : string :=
  if negb (String.eqb currentGUID "") then name +:+ "|" +:+ currentGUID else name.

(** Lines 141 to 148 of [GetPool]: the record of a live entry, when
    caching is enabled ([ok && time.Now().Before(entry.expiry)]). *)
Definition cache_lookup (z : zdb) (key : string) (w : World) : option ZDBPool :=
  if 0 <? cacheTTL z then
    match zdbCache w !! key with
    | Some entry => if now w <? expiry entry then Some (entry_pool entry) else None
    | None => None
    end
  else None.

(** Lines 150 to 242 of [GetPool], the path taken when no live entry was
    found: run the tool, parse its lines, and store the record when caching
    is enabled. *)
Definition fetch_parse_store (z : zdb) (name currentGUID : string) (w : World)
    : (error + ZDBPool) * World :=
  let cacheEnabled := 0 <? cacheTTL z in
  let key := cacheKey name currentGUID in
  let args := zdbArgs ++ [name] in
  match zdbOutput z args w with
  | (inl err, w') => (inl err, w')
  | (inr lines, w') =>
    match lines with
    | [] => (inl (ErrNoOutput name), w')
    | _ :: _ =>
      match parse_lines name currentGUID lines with
      | inl err => (inl err, w')
      | inr p =>
        if cacheEnabled then
          (inr p,
           mkWorld (<[key := mkEntry p currentGUID (now w' + cacheTTL z)]> (zdbCache w'))
                   (now w') (CallHistory w'))
        else (inr p, w')
      end
    end
  end.

(** [func (z *zdb) GetPool(ctx, name, currentGUID)]: the result and the
    world after the call. *)
Definition GetPool (z : zdb) (name currentGUID : string) (w : World)
    : (error + ZDBPool) * World :=
  match cache_lookup z (cacheKey name currentGUID) w with
  | Some p => (inr p, w)
  | None => fetch_parse_store z name currentGUID w
  end.

(** [type Options struct].  [ZDBCacheTTLSeconds] is an [int32]; its
    product with [time.Second] fits the [int64] of a [time.Duration]. *)
Record Options := mkOptions {
  opt_Sudo : bool;
  opt_Runner : Runner;
  ZFSBin : string;
  ZpoolBin : string;
  ZDBBin : string;
  ZDBCacheTTLSeconds : Z
}.

(** [type Client struct], with the [zfs] and [zpool] clients reduced to
    the fields [NewClient] sets. *)
Record Client := mkClient {
  ZFS : Cmd;
  Zpool : Cmd * zdb;
  ZDB : zdb
}.

(** [func NewClient(opts Options) *Client]. *)
Definition NewClient (opts : Options) : Client :=
  let zfsBin := if String.eqb (ZFSBin opts) "" then "zfs" else ZFSBin opts in
  let zpoolBin := if String.eqb (ZpoolBin opts) "" then "zpool" else ZpoolBin opts in
  let zdbBin := if String.eqb (ZDBBin opts) "" then "zdb" else ZDBBin opts in
  let zfsCmd := mkCmd zfsBin (opt_Sudo opts) (opt_Runner opts) in
  let zpoolCmd := mkCmd zpoolBin (opt_Sudo opts) (opt_Runner opts) in
  let zdbCmd := mkCmd zdbBin (opt_Sudo opts) (opt_Runner opts) in
  let zdbCacheTTL :=
    if ZDBCacheTTLSeconds opts <? 0 then 5 * Minute
    else ZDBCacheTTLSeconds opts * Second in
  let zdbC := mkZdb zdbCmd zdbCacheTTL in
  mkClient zfsCmd (zpoolCmd, zdbC) zdbC.

(** A runner that prints the same text at every call, in no time: the
    mock runner of the tests. *)
Definition const_runner (stdout : string) : Runner :=
  fun _ _ _ => mkOutcome stdout "" None 0.

Definition NLs : string := String NL EmptyString.
Definition TABs : string := String TAB EmptyString.

(** [testutil.ZDBOutput], the sample of the specification. *)
Definition ZDBOutput : string :=
  "version: 5000" +:+ NLs +:+
  "name: tank" +:+ NLs +:+
  TABs +:+ "type: root" +:+ NLs +:+
  TABs +:+ TABs +:+ "id: 0" +:+ NLs +:+
  TABs +:+ TABs +:+ "guid: 12345678901234567890" +:+ NLs +:+
  TABs +:+ TABs +:+ "path: /dev/ada0p3" +:+ NLs +:+
  TABs +:+ TABs +:+ "whole_disk: 0" +:+ NLs +:+
  TABs +:+ TABs +:+ "metaslab_array: 71" +:+ NLs +:+
  TABs +:+ TABs +:+ "metaslab_shift: 24" +:+ NLs +:+
  TABs +:+ TABs +:+ "ashift: 9" +:+ NLs +:+
  TABs +:+ TABs +:+ "asize: 10737418240" +:+ NLs +:+
  TABs +:+ TABs +:+ "is_log: 0" +:+ NLs +:+
  TABs +:+ TABs +:+ "create_txg: 4".

(* ===================================================================== *)
(** * Predicates of the statements below *)
(* ===================================================================== *)

(** [p] goes down the right edge of the forest [cs]: each index is that of
    the last element of its list. *)
Fixpoint rightmost (cs : list ZDBPoolChild) (p : ptr) : Prop :=
  match p with
  | [] => True
  | i :: p' =>
    exists c, cs !! i = Some c /\ S i = length cs /\ rightmost (Children c) p'
  end.

(** The pointers of the stack, from the top down, are [top] and its
    shorter non-empty prefixes. *)
Fixpoint stack_chain (top : ptr) (stk : list childFrame) : Prop :=
  match stk with
  | [] => top = []
  | fr :: rest => child fr = top /\ top <> [] /\ stack_chain (removelast top) rest
  end.

(** Every frame is deeper than the frames below it. *)
Fixpoint indents_sorted (stk : list childFrame) : Prop :=
  match stk with
  | [] => True
  | fr :: rest =>
    (forall fr', In fr' rest -> (indent fr' < indent fr)%nat) /\ indents_sorted rest
  end.

(** The invariant of the loop. *)
Definition stack_ok (st : loopState) : Prop :=
  indents_sorted (stack st) /\
  exists top, stack_chain top (stack st) /\ rightmost (PoolChildren (pool st)) top.

(** The frames of depth less than [d], in stack order. *)
Fixpoint frames_below (d : nat) (stk : list childFrame) : list childFrame :=
  match stk with
  | [] => []
  | fr :: rest =>
    if (indent fr <? d)%nat then fr :: frames_below d rest else frames_below d rest
  end.

(** Two raw lines that differ at most in the depth of a line that is not a
    [type] line. *)
Definition same_up_to_prop_indent (r1 r2 : string) : Prop :=
  scan_line r1 = scan_line r2 \/
  exists d1 d2 prop val,
    scan_line r1 = Some (d1, prop, val) /\ scan_line r2 = Some (d2, prop, val) /\
    prop <> "type".

(** Every rune of the text, decoded from the left, is white space. *)
Fixpoint all_space_from (skip : nat) (s : string) : bool :=
  match s with
  | EmptyString => true
  | String _ s' =>
    match skip with
    | S k => all_space_from k s'
    | O =>
      let '(r, w) := utf8.DecodeRuneInString s in
      unicode.IsSpace r && all_space_from (w - 1) s'
    end
  end.

Definition all_space (s : string) : bool := all_space_from 0 s.

(** No byte of the text is a newline. *)
Fixpoint no_newline (s : string) : bool :=
  match s with
  | EmptyString => true
  | String c s' => negb (Ascii.eqb c NL) && no_newline s'
  end.

(** A text made of newlines only. *)
Fixpoint only_newlines (s : string) : bool :=
  match s with
  | EmptyString => true
  | String c s' => Ascii.eqb c NL && only_newlines s'
  end.

(* ===================================================================== *)
(** * Concrete inputs *)
(* ===================================================================== *)

(** A pool with a mirror of one disk: three nested nodes. *)
Definition nested_lines : list string :=
  [ "version: 5000";
    "name: tank";
    TABs +:+ "type: root";
    TABs +:+ TABs +:+ "id: 0";
    TABs +:+ TABs +:+ "type: mirror";
    TABs +:+ TABs +:+ TABs +:+ "id: 0";
    TABs +:+ TABs +:+ TABs +:+ "type: disk";
    TABs +:+ TABs +:+ TABs +:+ TABs +:+ "id: 0" ].

(** The state of the loop after the lines [lines], the initial state if
    they fail. *)
Definition state_after (name currentGUID : string) (lines : list string) : loopState :=
  match run_lines (init_loop name currentGUID) lines with
  | inr st => st
  | inl _ => init_loop name currentGUID
  end.

(** A second disk of the mirror, at the depth of the first. *)
Definition second_disk_line : string := TABs +:+ TABs +:+ TABs +:+ "type: disk".

(** A property line of the open disk. *)
Definition path_line : string := TABs +:+ TABs +:+ TABs +:+ TABs +:+ "path: /dev/da0".

(** The output of the specification's bad-field case: a [guid] that is no
    number, under an open node. *)
Definition root_line : string := TABs +:+ "type: root".
Definition bad_guid_line : string := TABs +:+ TABs +:+ "guid: not-a-number".
Definition bad_guid_output : string := root_line +:+ NLs +:+ bad_guid_line.

(** A client of the tests: the binary [zdb], no sudo, a runner that prints
    [stdout], and the given TTL. *)
Definition zdb_printing (stdout : string) (ttl : Z) : zdb :=
  mkZdb (mkCmd "zdb" false (const_runner stdout)) ttl.

(** The world at the start of a process: an empty cache, nothing run. *)
Definition world0 : World := mkWorld ∅ 0 [].

(** The TTL of the caching test, 100 milliseconds. *)
Definition ttl_100ms : Z := 100 * 1000000.

(** The world after a first [GetPool] for [tank] on the sample output. *)
Definition world_after_first_call : World :=
  snd (GetPool (zdb_printing ZDBOutput ttl_100ms) "tank" "" world0).

(** The record the sample output parses to. *)
Definition sample_pool : ZDBPool :=
  match parse_lines "tank" "" (Split ZDBOutput NL) with
  | inr p => p
  | inl _ => mkZDBPool "" "" "" []
  end.

(** Options that ask for a negative number of seconds. *)
Definition opts_negative_ttl : Options :=
  mkOptions false (const_runner ZDBOutput) "" "" "" (-1).

(** The eleven entries of the property map of the sample's root node. *)
Definition sample_properties : list (string * string) :=
  [ ("type", "root"); ("id", "0"); ("guid", "12345678901234567890");
    ("path", "/dev/ada0p3"); ("whole_disk", "0"); ("metaslab_array", "71");
    ("metaslab_shift", "24"); ("ashift", "9"); ("asize", "10737418240");
    ("is_log", "0"); ("create_txg", "4") ].

(** The root node of the sample. *)
Definition sample_root : ZDBPoolChild :=
  mkZDBPoolChild "root" 0 12345678901234567890 "/dev/ada0p3" 0 71 24 9
    10737418240 0 4 (list_to_map sample_properties) [].

(* ===================================================================== *)
(** * Reading the tree and the input: what the further properties speak of *)
(* ===================================================================== *)

(** The types of a node and of the nodes under it, parent first and
    children in order. *)
Fixpoint preorder_types (c : ZDBPoolChild) : list string :=
  match c with
  | mkZDBPoolChild ty _ _ _ _ _ _ _ _ _ _ _ kids =>
    ty :: (fix go (cs : list ZDBPoolChild) : list string :=
             match cs with
             | [] => []
             | x :: r => preorder_types x ++ go r
             end) kids
  end.

(** The same for a list of nodes. *)
Definition forest_types (cs : list ZDBPoolChild) : list string :=
  flat_map preorder_types cs.

(** [P] holds of a node and of every node under it. *)
Fixpoint all_nodes (P : ZDBPoolChild -> Prop) (c : ZDBPoolChild) : Prop :=
  P c /\
  match c with
  | mkZDBPoolChild _ _ _ _ _ _ _ _ _ _ _ _ kids =>
    (fix go (cs : list ZDBPoolChild) : Prop :=
       match cs with
       | [] => True
       | x :: r => all_nodes P x /\ go r
       end) kids
  end.

(** The value of a raw line that the loop reads as a [type] line. *)
Definition type_line_value (rawLine : string) : option string :=
  match scan_line rawLine with
  | Some (_, prop, val) => if String.eqb prop "type" then Some val else None
  | None => None
  end.

(** The values of the [type] lines of an input, in order. *)
Fixpoint type_values (lines : list string) : list string :=
  match lines with
  | [] => []
  | l :: rest =>
    match type_line_value l with
    | Some v => v :: type_values rest
    | None => type_values rest
    end
  end.

(** The value of the last line with property [key] among the lines before
    the first [type] line; [default] when there is none. *)
Fixpoint header_value (key default : string) (lines : list string) : string :=
  match lines with
  | [] => default
  | l :: rest =>
    match scan_line l with
    | Some (_, prop, val) =>
      if String.eqb prop "type" then default
      else header_value key (if String.eqb prop key then val else default) rest
    | None => header_value key default rest
    end
  end.

(** The typed numeric fields, each with its scanner and its field. *)
Definition typed_getters
    : list (string * (string -> fmt.ScanError + Z) * (ZDBPoolChild -> Z)) :=
  [ ("id", fmt.Sscan_int, ID); ("guid", fmt.Sscan_uint64, GUID);
    ("whole_disk", fmt.Sscan_int, WholeDisk);
    ("metaslab_array", fmt.Sscan_int, MetaslabArray);
    ("metaslab_shift", fmt.Sscan_int, MetaslabShift);
    ("ashift", fmt.Sscan_int, Ashift); ("asize", fmt.Sscan_uint64, Asize);
    ("is_log", fmt.Sscan_int, IsLog);
    ("create_txg", fmt.Sscan_uint64, CreateTXG) ].

(** The typed fields of a node say what its property map says: [Type] and
    [Path] are the entries [type] and [path] (the empty string without an
    entry), and each numeric field is what its scanner reads from its entry
    (zero without an entry). *)
Definition node_mirrors (c : ZDBPoolChild) : Prop :=
  Properties c !! "type" = Some (Type_ c) /\
  Path c = default "" (Properties c !! "path") /\
  forall f scan get, In (f, scan, get) typed_getters ->
    match Properties c !! f with
    | Some v => scan v = inr (get c)
    | None => get c = 0
    end.

(** The command line one [GetPool] for [name] runs through the command
    [c]: the program and its arguments. *)
Definition zdb_command (c : Cmd) (name : string) : string * list string :=
  if Sudo c then ("sudo", Bin c :: zdbArgs ++ [name])
  else (Bin c, zdbArgs ++ [name]).

(** The byte of the separator of the cache key. *)
Definition PIPE : ascii := "|"%char.

(** Every entry of the cache holds a record with the GUID the entry was
    stored for, under the key of that GUID and of a name without
    separator. *)
Definition cache_tidy (c : gmap string zdbCacheEntry) : Prop :=
  forall k e, c !! k = Some e ->
    PoolGUID (entry_pool e) = entry_guid e /\
    exists n, mem_byte PIPE n = false /\ k = cacheKey n (entry_guid e).





(** The world of the caching test at the instant the first entry
    expires. *)
Definition stale_world : World :=
  mkWorld (zdbCache world_after_first_call) ttl_100ms [].

(** [func ParseUint64(value string) uint64] of [helpers.go]: the value of
    [strconv.ParseUint] in base 10 and 64 bits on the trimmed text, and
    zero on any error. *)
Definition ParseUint64 (value : string) : Z :=
  match strconv.ParseUint (TrimSpace value) 10 64 with
  | inl _ => 0
  | inr v => v
  end.

(** A decimal numeral and its value: what the statement on
    [ParseUint64] compares the function with. *)
Definition is_digit (c : ascii) : bool := utf8.in_range 48 57 (utf8.byte_of c).

Fixpoint all_digits (s : string) : bool :=
  match s with
  | EmptyString => true
  | String c s' => is_digit c && all_digits s'
  end.

Definition is_decimal (s : string) : bool :=
  match s with
  | EmptyString => false
  | String _ _ => all_digits s
  end.

Fixpoint decimal_from (n : Z) (s : string) : Z :=
  match s with
  | EmptyString => n
  | String c s' => decimal_from (n * 10 + (utf8.byte_of c - 48)) s'
  end.

Definition decimal_value (s : string) : Z := decimal_from 0 s.

(* ===================================================================== *)
(** * Pointers: reading and writing on the right edge *)
(* ===================================================================== *)

Section Pointers.

Lemma deref_cons i p cs :
  deref cs (i :: p) =
  match cs !! i with
  | None => None
  | Some c => match p with [] => Some c | _ :: _ => deref (Children c) p end
  end.
Proof. reflexivity. Qed.

Lemma rightmost_deref cs p :
  rightmost cs p -> p <> [] -> exists c, deref cs p = Some c.
Proof.
  revert cs. induction p as [|i p IH]; intros cs Hr Hne; [congruence|].
  destruct Hr as (c & Hc & _ & Hr). rewrite deref_cons, Hc.
  destruct p as [|j p]; [eauto|]. apply IH; [exact Hr|discriminate].
Qed.

Lemma rightmost_removelast cs p :
  rightmost cs p -> rightmost cs (removelast p).
Proof.
  revert cs. induction p as [|i p IH]; intros cs Hr; [exact I|].
  destruct Hr as (c & Hc & Hlen & Hr).
  destruct p as [|j p]; [exact I|].
  change (removelast (i :: j :: p)) with (i :: removelast (j :: p)).
  exists c. auto.
Qed.

Lemma deref_store cs p c v :
  deref cs p = Some c -> deref (store cs p v) p = Some v.
Proof.
  revert cs. induction p as [|i p IH]; intros cs Hd; [discriminate|].
  rewrite deref_cons in Hd. simpl store.
  destruct (cs !! i) as [c0|] eqn:Hi; [|discriminate].
  rewrite deref_cons.
  rewrite list_lookup_insert_eq by (eapply lookup_lt_Some; eauto).
  destruct p as [|j p]; [reflexivity|].
  simpl Children. apply IH. exact Hd.
Qed.

(** A write that keeps the number of children of the node keeps the
    right edge. *)
Lemma rightmost_store_same cs p c v :
  rightmost cs p -> deref cs p = Some c ->
  length (Children v) = length (Children c) ->
  rightmost (store cs p v) p.
Proof.
  revert cs. induction p as [|i p IH]; intros cs Hr Hd Hlen; [exact I|].
  destruct Hr as (c0 & Hc0 & Hl & Hr).
  rewrite deref_cons, Hc0 in Hd. simpl store. rewrite Hc0.
  assert (Hi : (i < length cs)%nat) by (eapply lookup_lt_Some; eauto).
  destruct p as [|j p].
  - exists v. rewrite list_lookup_insert_eq by exact Hi.
    rewrite length_insert. auto.
  - eexists. rewrite list_lookup_insert_eq by exact Hi.
    rewrite length_insert. split; [reflexivity|]. split; [exact Hl|].
    simpl Children. apply IH; assumption.
Qed.

(** Appending a child to the node at the end of the right edge extends
    the edge by the new child. *)
Lemma rightmost_store_push cs p c n :
  rightmost cs p -> deref cs p = Some c ->
  rightmost (store cs p (set_Children (Children c ++ [n]) c))
            (p ++ [length (Children c)]).
Proof.
  revert cs. induction p as [|i p IH]; intros cs Hr Hd; [discriminate|].
  destruct Hr as (c0 & Hc0 & Hl & Hr).
  rewrite deref_cons, Hc0 in Hd. simpl store. rewrite Hc0.
  assert (Hi : (i < length cs)%nat) by (eapply lookup_lt_Some; eauto).
  destruct p as [|j p].
  - injection Hd as ->. simpl app.
    eexists. rewrite list_lookup_insert_eq by exact Hi.
    rewrite length_insert. split; [reflexivity|]. split; [exact Hl|].
    simpl Children. exists n. split.
    + rewrite lookup_app_r by lia. rewrite Nat.sub_diag. reflexivity.
    + split; [|exact I]. rewrite length_app. simpl. lia.
  - change ((i :: j :: p) ++ [length (Children c)])
      with (i :: ((j :: p) ++ [length (Children c)])).
    eexists. rewrite list_lookup_insert_eq by exact Hi.
    rewrite length_insert. split; [reflexivity|]. split; [exact Hl|].
    simpl Children. apply IH; assumption.
Qed.

Lemma deref_snoc cs p c :
  deref cs p = Some c ->
  forall k x, Children c !! k = Some x ->
  deref cs (p ++ [k]) = Some x.
Proof.
  revert cs. induction p as [|i p IH]; intros cs Hd k x Hk; [discriminate|].
  rewrite deref_cons in Hd.
  change ((i :: p) ++ [k]) with (i :: (p ++ [k])). rewrite deref_cons.
  destruct (cs !! i) as [c0|]; [|discriminate].
  destruct p as [|j p].
  - injection Hd as ->. simpl. rewrite Hk. reflexivity.
  - change ((j :: p) ++ [k]) with (j :: (p ++ [k])) in *.
    apply IH; assumption.
Qed.

End Pointers.

(* ===================================================================== *)
(** * [parseProp]: what it writes and how it fails *)
(* ===================================================================== *)

Section ParseProp.

Lemma scan_into_cases field scan set val c :
  (exists e, scan val = inl e /\
     scan_into field scan set val c = (c, Some (ErrParseProp field e))) \/
  (exists v, scan val = inr v /\ scan_into field scan set val c = (set v c, None)).
Proof.
  unfold scan_into. destruct (scan val) as [e|v]; [left|right]; eauto.
Qed.

(** The receiver keeps its children whatever the property. *)
Lemma parseProp_Children c prop val :
  Children (fst (parseProp c prop val)) = Children c.
Proof.
  unfold parseProp, scan_into.
  repeat match goal with
  | |- context [if ?b then _ else _] => destruct b
  | |- context [match ?x with inl _ => _ | inr _ => _ end] => destruct x
  end; reflexivity.
Qed.

(** The property map is written in every case, also in a failing one. *)
Lemma parseProp_Properties c prop val :
  Properties (fst (parseProp c prop val)) = <[prop := val]> (Properties c).
Proof.
  unfold parseProp, scan_into.
  repeat match goal with
  | |- context [if ?b then _ else _] => destruct b
  | |- context [match ?x with inl _ => _ | inr _ => _ end] => destruct x
  end; reflexivity.
Qed.

(** An error of [parseProp] is a conversion error. *)
Lemma parseProp_error c prop val c' e :
  parseProp c prop val = (c', Some e) ->
  exists cause, e = ErrParseProp prop cause.
Proof.
  unfold parseProp, scan_into.
  repeat match goal with
  | |- context [String.eqb prop ?k] =>
    let E := fresh "E" in
    destruct (String.eqb prop k) eqn:E;
    [apply String.eqb_eq in E; subst prop|]
  | |- context [match ?x with inl _ => _ | inr _ => _ end] => destruct x
  end; intros H; inversion H; eauto.
Qed.

(** A typed field whose value does not convert makes [parseProp] fail
    with the error that names the field. *)
Lemma parseProp_typed_failure c field scan val cause :
  In (field, scan) typed_fields -> scan val = inl cause ->
  snd (parseProp c field val) = Some (ErrParseProp field cause).
Proof.
  intros Hin Hs. unfold typed_fields in Hin. simpl in Hin.
  repeat (destruct Hin as [Hin|Hin];
          [injection Hin as <- <-; unfold parseProp, scan_into; simpl;
           rewrite Hs; reflexivity|]).
  destruct Hin.
Qed.

(** A property that is no typed field never makes [parseProp] fail. *)
Lemma parseProp_untyped c prop val :
  (forall scan, ~ In (prop, scan) typed_fields) ->
  snd (parseProp c prop val) = None.
Proof.
  intros Hn. unfold parseProp.
  repeat match goal with
  | |- context [String.eqb prop ?k] =>
    let E := fresh "E" in
    destruct (String.eqb prop k) eqn:E;
    [apply String.eqb_eq in E; subst prop;
     try reflexivity;
     exfalso; eapply Hn; unfold typed_fields; simpl; eauto 12|]
  end. reflexivity.
Qed.

End ParseProp.

(* ===================================================================== *)
(** * The stack: sorted depths and pointers on the right edge *)
(* ===================================================================== *)

Section Stack.

Lemma frames_below_all d stk :
  (forall fr, In fr stk -> (indent fr < d)%nat) -> frames_below d stk = stk.
Proof.
  induction stk as [|fr rest IH]; intros H; [reflexivity|].
  simpl. destruct (Nat.ltb_spec (indent fr) d) as [_|Hge].
  - f_equal. apply IH. intros fr' Hin. apply H. right. exact Hin.
  - specialize (H fr (or_introl eq_refl)). lia.
Qed.

(** On a sorted stack the popping loop removes exactly the frames whose
    depth is at least that of the line. *)
Lemma pop_frames_below d stk :
  indents_sorted stk -> pop_frames d stk = frames_below d stk.
Proof.
  induction stk as [|fr rest IH]; intros Hs; [reflexivity|].
  destruct Hs as [Hlt Hs]. simpl.
  destruct (Nat.leb_spec d (indent fr)) as [Hle|Hgt];
    destruct (Nat.ltb_spec (indent fr) d) as [Hlt'|Hge]; try lia.
  - apply IH. exact Hs.
  - f_equal. symmetry. apply frames_below_all.
    intros fr' Hin. specialize (Hlt fr' Hin). lia.
Qed.

Lemma frames_below_In d stk fr :
  In fr (frames_below d stk) -> In fr stk /\ (indent fr < d)%nat.
Proof.
  induction stk as [|fr0 rest IH]; simpl; [tauto|].
  destruct (Nat.ltb_spec (indent fr0) d) as [Hlt|Hge].
  - intros [<-|Hin]; [auto|]. destruct (IH Hin). auto.
  - intros Hin. destruct (IH Hin). auto.
Qed.

Lemma frames_below_sorted d stk :
  indents_sorted stk -> indents_sorted (frames_below d stk).
Proof.
  induction stk as [|fr rest IH]; intros Hs; [exact I|].
  destruct Hs as [Hlt Hs]. simpl.
  destruct (indent fr <? d)%nat; [|auto].
  split; [|auto]. intros fr' Hin. apply Hlt.
  apply frames_below_In in Hin. tauto.
Qed.

(** What stays after the popping loop is a lower part of the stack, whose
    pointers are again a chain on the right edge. *)
Lemma pop_frames_chain d cs top stk :
  stack_chain top stk -> rightmost cs top ->
  exists top', stack_chain top' (pop_frames d stk) /\ rightmost cs top'.
Proof.
  revert top. induction stk as [|fr rest IH]; intros top Hc Hr.
  - exists top. auto.
  - simpl pop_frames. destruct (d <=? indent fr)%nat.
    + destruct Hc as (_ & _ & Hc).
      apply (IH (removelast top)); [exact Hc|].
      apply rightmost_removelast. exact Hr.
    + exists top. auto.
Qed.

Lemma stack_chain_push top stk k d :
  stack_chain top stk ->
  stack_chain (top ++ [k]) (mkFrame (top ++ [k]) d :: stk).
Proof.
  intros Hc. simpl. split; [reflexivity|]. split.
  - destruct top; discriminate.
  - rewrite removelast_last. exact Hc.
Qed.

Lemma stack_chain_top top fr rest :
  stack_chain top (fr :: rest) -> child fr = top /\ top <> [].
Proof. simpl. tauto. Qed.

End Stack.

(* ===================================================================== *)
(** * The invariant of the loop *)
(* ===================================================================== *)

Section LoopInvariant.

Lemma init_loop_ok name currentGUID : stack_ok (init_loop name currentGUID).
Proof.
  split; [exact I|]. exists []. split; [reflexivity|exact I].
Qed.

(** The top pointer of a stack that satisfies the invariant leads to a
    node. *)
Lemma stack_ok_deref st fr rest :
  stack_ok st -> stack st = fr :: rest ->
  rightmost (PoolChildren (pool st)) (child fr) /\
  exists c, deref (PoolChildren (pool st)) (child fr) = Some c.
Proof.
  intros (_ & top & Hc & Hr) Hs. rewrite Hs in Hc.
  destruct (stack_chain_top _ _ _ Hc) as [-> Hne].
  split; [exact Hr|]. apply rightmost_deref; assumption.
Qed.

(** What a [type] line does to a state that satisfies the invariant. *)
Lemma handle_type_line st d val :
  stack_ok st ->
  exists st' newp,
    handle_line st d "type" val = inr st' /\
    stack_ok st' /\
    stack st' = mkFrame newp d :: frames_below d (stack st) /\
    deref (PoolChildren (pool st')) newp = Some (newChild val) /\
    PoolName (pool st') = PoolName (pool st) /\
    PoolGUID (pool st') = PoolGUID (pool st) /\
    PoolVersion (pool st') = PoolVersion (pool st) /\
    match frames_below d (stack st) with
    | [] =>
      PoolChildren (pool st') = PoolChildren (pool st) ++ [newChild val] /\
      newp = [length (PoolChildren (pool st))]
    | fr :: _ =>
      exists parent,
        deref (PoolChildren (pool st)) (child fr) = Some parent /\
        PoolChildren (pool st') =
          store (PoolChildren (pool st)) (child fr)
                (set_Children (Children parent ++ [newChild val]) parent) /\
        deref (PoolChildren (pool st')) (child fr) =
          Some (set_Children (Children parent ++ [newChild val]) parent) /\
        newp = child fr ++ [length (Children parent)]
    end.
Proof.
  intros Hok. pose proof Hok as (Hsort & top & Hchain & Hright).
  unfold handle_line.
  replace (String.eqb "type" "version" || String.eqb "type" "name") with false
    by reflexivity.
  rewrite andb_false_r. simpl String.eqb.
  rewrite (pop_frames_below d _ Hsort).
  pose proof (frames_below_sorted d _ Hsort) as Hsort'.
  destruct (pop_frames_chain d _ _ _ Hchain Hright) as (top' & Hchain' & Hright').
  rewrite (pop_frames_below d _ Hsort) in Hchain'.
  pose proof (frames_below_In d (stack st)) as Hin.
  destruct (frames_below d (stack st)) as [|fr kept] eqn:Hkept.
  - set (cs := PoolChildren (pool st) ++ [newChild val]).
    assert (Hlen : (length cs - 1)%nat = length (PoolChildren (pool st))).
    { unfold cs. rewrite length_app. simpl. lia. }
    eexists _, _. split; [reflexivity|].
    assert (Hnew : cs !! length (PoolChildren (pool st)) = Some (newChild val)).
    { unfold cs. rewrite lookup_app_r by lia. rewrite Nat.sub_diag. reflexivity. }
    split; [|simpl; rewrite Hlen; split; [reflexivity|];
             split; [simpl; rewrite Hnew; reflexivity|]; repeat split; reflexivity].
    split; simpl.
    + split; [intros ? []|exact I].
    + exists [length (PoolChildren (pool st))]. rewrite Hlen.
      split; [repeat split; discriminate|].
      simpl. exists (newChild val). split; [exact Hnew|].
      split; [|exact I]. unfold cs. rewrite length_app. simpl. lia.
  - destruct (stack_chain_top _ _ _ Hchain') as [Hfr Hne]. subst top'.
    destruct (rightmost_deref _ _ Hright' Hne) as [parent Hparent].
    rewrite Hparent.
    set (kids := Children parent ++ [newChild val]).
    assert (Hlen : (length kids - 1)%nat = length (Children parent)).
    { unfold kids. rewrite length_app. simpl. lia. }
    eexists _, _. split; [reflexivity|].
    assert (Hst : deref (store (PoolChildren (pool st)) (child fr)
                               (set_Children kids parent)) (child fr)
                  = Some (set_Children kids parent)).
    { eapply deref_store. exact Hparent. }
    assert (Hnew : deref (store (PoolChildren (pool st)) (child fr)
                                (set_Children kids parent))
                         (child fr ++ [length (Children parent)])
                   = Some (newChild val)).
    { eapply deref_snoc; [exact Hst|]. simpl. unfold kids.
      rewrite lookup_app_r by lia. rewrite Nat.sub_diag. reflexivity. }
    split; [|simpl; rewrite Hlen; split; [reflexivity|];
             split; [exact Hnew|]; repeat (split; [reflexivity|]);
             exists parent; repeat split; assumption].
    split; simpl.
    + split; [|exact Hsort'].
      intros fr' Hfr'. simpl. apply (Hin fr'). exact Hfr'.
    + rewrite Hlen. exists (child fr ++ [length (Children parent)]).
      split.
      * apply (stack_chain_push (child fr) (fr :: kept) _ d). exact Hchain'.
      * apply rightmost_store_push; assumption.
Qed.

(** What any other line does when a node is open: the property goes to
    the node on top of the stack. *)
Lemma handle_prop_line st d prop val fr rest :
  stack_ok st -> stack st = fr :: rest -> prop <> "type" ->
  exists current,
    deref (PoolChildren (pool st)) (child fr) = Some current /\
    handle_line st d prop val =
      match parseProp current prop val with
      | (_, Some err) => inl err
      | (current', None) =>
        inr (mkLoop (set_PoolChildren
                       (store (PoolChildren (pool st)) (child fr) current')
                       (pool st))
                    (stack st))
      end.
Proof.
  intros Hok Hs Hne.
  destruct (stack_ok_deref _ _ _ Hok Hs) as (_ & current & Hcur).
  exists current. split; [exact Hcur|].
  unfold handle_line. rewrite Hs. simpl andb.
  destruct (String.eqb_spec prop "type") as [->|_]; [congruence|].
  rewrite Hcur. reflexivity.
Qed.


Lemma parseLine_Children p prop val :
  PoolChildren (parseLine p prop val) = PoolChildren p.
Proof.
  unfold parseLine.
  destruct (String.eqb prop "version"); [reflexivity|].
  destruct (String.eqb prop "name"); reflexivity.
Qed.

Lemma parseLine_GUID p prop val :
  PoolGUID (parseLine p prop val) = PoolGUID p.
Proof.
  unfold parseLine.
  destruct (String.eqb prop "version"); [reflexivity|].
  destruct (String.eqb prop "name"); reflexivity.
Qed.

(** One line keeps the invariant and never uses a stale pointer. *)
Lemma handle_line_ok st d prop val :
  stack_ok st ->
  match handle_line st d prop val with
  | inl e => e <> PanicInvalidPointer
  | inr st' => stack_ok st'
  end.
Proof.
  intros Hok.
  destruct (String.eqb_spec prop "type") as [->|Hne].
  - destruct (handle_type_line st d val Hok) as (st' & newp & -> & Hok' & _).
    exact Hok'.
  - destruct (stack st) as [|fr rest] eqn:Hs.
    + unfold handle_line. rewrite Hs. simpl andb.
      destruct (String.eqb_spec prop "type") as [->|_]; [congruence|].
      destruct (String.eqb prop "version" || String.eqb prop "name").
      * destruct Hok as (Hsort & top & Hc & Hr). rewrite Hs in *.
        split; [exact I|]. exists top. simpl.
        rewrite parseLine_Children. auto.
      * exact Hok.
    + destruct (handle_prop_line st d prop val fr rest Hok Hs Hne)
        as (current & Hcur & ->).
      destruct (parseProp current prop val) as [current' [err|]] eqn:Hp.
      * destruct (parseProp_error _ _ _ _ _ Hp) as [cause ->]. discriminate.
      * destruct (stack_ok_deref _ _ _ Hok Hs) as (Hr & _).
        destruct Hok as (Hsort & top & Hc & _).
        split; [exact Hsort|]. simpl. exists top. split; [exact Hc|].
        rewrite Hs in Hc. destruct (stack_chain_top _ _ _ Hc) as [<- _].
        eapply rightmost_store_same; [exact Hr|exact Hcur|].
        pose proof (parseProp_Children current prop val) as Hk.
        rewrite Hp in Hk. simpl in Hk. rewrite Hk. reflexivity.
Qed.

Lemma loop_body_ok st rawLine :
  stack_ok st ->
  match loop_body st rawLine with
  | inl e => e <> PanicInvalidPointer
  | inr st' => stack_ok st'
  end.
Proof.
  intros Hok. unfold loop_body.
  destruct (scan_line rawLine) as [[[d prop] val]|]; [|exact Hok].
  apply handle_line_ok. exact Hok.
Qed.

Lemma run_lines_ok lines : forall st,
  stack_ok st ->
  match run_lines st lines with
  | inl e => e <> PanicInvalidPointer
  | inr st' => stack_ok st'
  end.
Proof.
  induction lines as [|l lines IH]; intros st Hok; [exact Hok|].
  simpl. pose proof (loop_body_ok st l Hok) as Hl.
  destruct (loop_body st l) as [e|st']; [exact Hl|]. apply IH. exact Hl.
Qed.

(** The loop never follows a pointer that leads to no node: the panic of
    the model is unreachable from [GetPool]. *)
Lemma run_lines_no_panic name currentGUID lines :
  run_lines (init_loop name currentGUID) lines <> inl PanicInvalidPointer.
Proof.
  pose proof (run_lines_ok lines _ (init_loop_ok name currentGUID)) as H.
  destruct (run_lines (init_loop name currentGUID) lines); congruence.
Qed.

Lemma run_lines_reaches_ok name currentGUID lines st :
  run_lines (init_loop name currentGUID) lines = inr st -> stack_ok st.
Proof.
  intros H.
  pose proof (run_lines_ok lines _ (init_loop_ok name currentGUID)) as Hok.
  rewrite H in Hok. exact Hok.
Qed.

Lemma run_lines_app l1 : forall st l2,
  run_lines st (l1 ++ l2) =
  match run_lines st l1 with
  | inl e => inl e
  | inr st' => run_lines st' l2
  end.
Proof.
  induction l1 as [|l l1 IH]; intros st l2; [reflexivity|].
  simpl. destruct (loop_body st l); [reflexivity|]. apply IH.
Qed.

End LoopInvariant.

(* ===================================================================== *)
(** * The nesting rule of [type] lines *)
(* ===================================================================== *)

(** C1.  When the loop, started by [GetPool] and having read the lines
    [pre] without error, reads a [type] line of depth [d], the line is
    accepted, and afterwards: the stack is the new frame, of depth [d], on
    top of exactly those former frames whose depth is less than [d] (every
    frame of depth at least [d] has been popped); the pointer of the new
    frame leads to the new node; the new node is the last child of the node
    of the frame now under it, or the last top-level child of the pool when
    no frame is left; name, GUID and version of the pool are untouched. *)
Theorem C1_type_line_closes_then_attaches
    (name currentGUID : string) (pre : list string) (rawLine : string)
    (d : nat) (val : string) (st : loopState) :
  run_lines (init_loop name currentGUID) pre = inr st ->
  scan_line rawLine = Some (d, "type", val) ->
  exists st' newp,
    loop_body st rawLine = inr st' /\
    stack st' = mkFrame newp d :: frames_below d (stack st) /\
    (forall fr, In fr (stack st) ->
       (In fr (frames_below d (stack st)) <-> (indent fr < d)%nat)) /\
    deref (PoolChildren (pool st')) newp = Some (newChild val) /\
    PoolName (pool st') = PoolName (pool st) /\
    PoolGUID (pool st') = PoolGUID (pool st) /\
    PoolVersion (pool st') = PoolVersion (pool st) /\
    match frames_below d (stack st) with
    | [] =>
      PoolChildren (pool st') = PoolChildren (pool st) ++ [newChild val] /\
      newp = [length (PoolChildren (pool st))]
    | fr :: _ =>
      exists parent,
        deref (PoolChildren (pool st)) (child fr) = Some parent /\
        PoolChildren (pool st') =
          store (PoolChildren (pool st)) (child fr)
                (set_Children (Children parent ++ [newChild val]) parent) /\
        deref (PoolChildren (pool st')) (child fr) =
          Some (set_Children (Children parent ++ [newChild val]) parent) /\
        newp = child fr ++ [length (Children parent)]
    end.
Proof.
  intros Hrun Hscan.
  pose proof (run_lines_reaches_ok _ _ _ _ Hrun) as Hok.
  destruct (handle_type_line st d val Hok)
    as (st' & newp & Hh & _ & Hstack & Hnew & Hn & Hg & Hv & Hattach).
  exists st', newp. unfold loop_body. rewrite Hscan.
  split; [exact Hh|]. split; [exact Hstack|]. split.
  - intros fr Hin. split.
    + intros H. apply frames_below_In in H. tauto.
    + intros Hlt. clear - Hin Hlt.
      induction (stack st) as [|fr0 rest IH]; [destruct Hin|].
      simpl. destruct (Nat.ltb_spec (indent fr0) d) as [H0|H0].
      * destruct Hin as [->|Hin]; [left; reflexivity|right; auto].
      * destruct Hin as [->|Hin]; [lia|auto].
  - repeat (split; [assumption|]). exact Hattach.
Qed.

(** C1 at the mirror example: a second disk line, of depth 3, closes the
    first disk (depth 3) and goes under the mirror (depth 2). *)
Lemma C1_type_line_witness :
  run_lines (init_loop "tank" "") nested_lines
    = inr (state_after "tank" "" nested_lines) /\
  scan_line second_disk_line = Some (3%nat, "type", "disk") /\
  exists st' newp,
    loop_body (state_after "tank" "" nested_lines) second_disk_line = inr st' /\
    stack st' = mkFrame newp 3 :: [mkFrame [0%nat; 0%nat] 2; mkFrame [0%nat] 1] /\
    newp = [0%nat; 0%nat; 1%nat].
Proof.
  split; [vm_compute; reflexivity|]. split; [vm_compute; reflexivity|].
  destruct (C1_type_line_closes_then_attaches "tank" "" nested_lines
              second_disk_line 3 "disk" (state_after "tank" "" nested_lines))
    as (st' & newp & Hb & Hs & _ & _ & _ & _ & _ & Hat);
    [vm_compute; reflexivity|vm_compute; reflexivity|].
  exists st', newp. split; [exact Hb|].
  split; [exact Hs|].
  destruct Hat as (parent & Hp & _ & _ & Hn).
  vm_compute in Hp. injection Hp as <-. exact Hn.
Defined.

(* ===================================================================== *)
(** * Property lines: the depth is not used *)
(* ===================================================================== *)



(** One more tab in front of a line changes its depth and nothing else. *)
Lemma scan_line_tab rawLine :
  scan_line (String TAB rawLine) =
  match scan_line rawLine with
  | Some (d, prop, val) => Some (S d, prop, val)
  | None => None
  end.
Proof.
  unfold scan_line.
  change (TrimSpace (String TAB rawLine)) with (TrimSpace rawLine).
  destruct (String.eqb (TrimSpace rawLine) ""); [reflexivity|].
  change (TrimLeft (String TAB rawLine) (String TAB (String SP EmptyString)))
    with (TrimLeft rawLine (String TAB (String SP EmptyString))).
  change (leading_tabs (String TAB rawLine)) with (S (leading_tabs rawLine)).
  destruct (SplitN_2 _ COLON) as [|p0 [|p1 [|? ?]]]; reflexivity.
Qed.

(** So a property line indented further is read as the same property. *)
Lemma same_up_to_prop_indent_tab rawLine :
  (forall d val, scan_line rawLine <> Some (d, "type", val)) ->
  same_up_to_prop_indent rawLine (String TAB rawLine).
Proof.
  intros Hnt. unfold same_up_to_prop_indent. rewrite scan_line_tab.
  destruct (scan_line rawLine) as [[[d prop] val]|]; [|left; reflexivity].
  right. exists d, (S d), prop, val. repeat split.
  intros ->. apply (Hnt d val). reflexivity.
Qed.

Section Frame.

(** A write that keeps the children of the node written changes no node
    but that one and, in their lists of children, the nodes above it. *)
Lemma deref_store_frame p : forall cs q old v,
  deref cs p = Some old -> Children v = Children old ->
  ~ (exists k, p = q ++ k) ->
  deref (store cs p v) q = deref cs q.
Proof.
  induction p as [|i p IH]; intros cs q old v Hd Hk Hq; [discriminate|].
  rewrite deref_cons in Hd. simpl store.
  destruct (cs !! i) as [c0|] eqn:Hi; [|discriminate].
  destruct q as [|j q]; [reflexivity|].
  rewrite !deref_cons.
  destruct (decide (i = j)) as [<-|Hne];
    [|rewrite list_lookup_insert_ne by exact Hne; reflexivity].
  rewrite list_lookup_insert_eq by (eapply lookup_lt_Some; eauto).
  rewrite Hi.
  destruct q as [|j' q].
  { exfalso. apply Hq. exists p. reflexivity. }
  destruct p as [|i' p].
  - injection Hd as <-. rewrite Hk. reflexivity.
  - change (Children (set_Children (store (Children c0) (i' :: p) v) c0))
      with (store (Children c0) (i' :: p) v).
    apply (IH (Children c0) (j' :: q) old v Hd Hk).
    intros [k Hk']. apply Hq. exists k. simpl. rewrite Hk'. reflexivity.
Qed.

End Frame.



(* ===================================================================== *)
(** * The world around a call: runs, clock and cache *)
(* ===================================================================== *)

Section WorldLemmas.

(** A run leaves the cache alone and is recorded as one call. *)
Lemma RunBytes_cache c args w :
  zdbCache (snd (RunBytes c args w)) = zdbCache w.
Proof.
  unfold RunBytes. destruct (Sudo c); simpl;
    destruct (out_err _); reflexivity.
Qed.

Lemma RunBytes_calls c args w :
  exists call, CallHistory (snd (RunBytes c args w)) = CallHistory w ++ [call].
Proof.
  unfold RunBytes. destruct (Sudo c); simpl;
    destruct (out_err _); simpl; eauto.
Qed.

Lemma zdbOutput_world z args w :
  snd (zdbOutput z args w) = snd (RunBytes (cmd z) args w).
Proof.
  unfold zdbOutput. destruct (RunBytes (cmd z) args w) as [[e|[out err]] w'];
    [reflexivity|]. simpl. destruct (String.eqb _ ""); reflexivity.
Qed.

Lemma zdbOutput_cache z args w :
  zdbCache (snd (zdbOutput z args w)) = zdbCache w.
Proof. rewrite zdbOutput_world. apply RunBytes_cache. Qed.

Lemma zdbOutput_calls z args w :
  exists call, CallHistory (snd (zdbOutput z args w)) = CallHistory w ++ [call].
Proof. rewrite zdbOutput_world. apply RunBytes_calls. Qed.

(** The lines [zdbOutput] returns do not depend on the cache. *)
Lemma RunBytes_cache_irrelevant c args w cache' :
  fst (RunBytes c args (mkWorld cache' (now w) (CallHistory w)))
    = fst (RunBytes c args w) /\
  now (snd (RunBytes c args (mkWorld cache' (now w) (CallHistory w))))
    = now (snd (RunBytes c args w)) /\
  CallHistory (snd (RunBytes c args (mkWorld cache' (now w) (CallHistory w))))
    = CallHistory (snd (RunBytes c args w)).
Proof.
  unfold RunBytes. destruct (Sudo c); simpl;
    destruct (out_err _); simpl; auto.
Qed.

Lemma GetPool_hit z name currentGUID w p :
  cache_lookup z (cacheKey name currentGUID) w = Some p ->
  GetPool z name currentGUID w = (inr p, w).
Proof. intros H. unfold GetPool. rewrite H. reflexivity. Qed.

Lemma GetPool_miss z name currentGUID w :
  cache_lookup z (cacheKey name currentGUID) w = None ->
  GetPool z name currentGUID w = fetch_parse_store z name currentGUID w.
Proof. intros H. unfold GetPool. rewrite H. reflexivity. Qed.

Lemma cache_lookup_disabled z key w :
  cacheTTL z <= 0 -> cache_lookup z key w = None.
Proof.
  intros H. unfold cache_lookup.
  destruct (Z.ltb_spec 0 (cacheTTL z)); [lia|reflexivity].
Qed.

(** The three ways the fetching path fails, and the one way it
    succeeds. *)
Lemma fetch_parse_store_cases z name currentGUID w :
  let r := zdbOutput z (zdbArgs ++ [name]) w in
  (exists err, fst r = inl err /\
     fetch_parse_store z name currentGUID w = (inl err, snd r)) \/
  (fst r = inr [] /\
     fetch_parse_store z name currentGUID w = (inl (ErrNoOutput name), snd r)) \/
  (exists lines err, fst r = inr lines /\ lines <> [] /\
     parse_lines name currentGUID lines = inl err /\
     fetch_parse_store z name currentGUID w = (inl err, snd r)) \/
  (exists lines p, fst r = inr lines /\ lines <> [] /\
     parse_lines name currentGUID lines = inr p /\
     fetch_parse_store z name currentGUID w =
       (inr p,
        if 0 <? cacheTTL z then
          mkWorld (<[cacheKey name currentGUID :=
                       mkEntry p currentGUID (now (snd r) + cacheTTL z)]>
                     (zdbCache (snd r)))
                  (now (snd r)) (CallHistory (snd r))
        else snd r)).
Proof.
  intros r. unfold fetch_parse_store. fold r.
  destruct r as [[err|lines] w']; simpl.
  - left. eauto.
  - destruct lines as [|l lines]; [right; left; auto|].
    destruct (parse_lines name currentGUID (l :: lines)) as [err|p] eqn:Hp.
    + right; right; left. exists (l :: lines), err.
      repeat split; auto; discriminate.
    + right; right; right. exists (l :: lines), p.
      repeat split; auto; try discriminate.
      destruct (0 <? cacheTTL z); reflexivity.
Qed.

End WorldLemmas.

(* ===================================================================== *)
(** * A value that does not convert *)
(* ===================================================================== *)

(** C4 (amended).  When the loop has read the lines [pre], a node is open,
    and the next line gives a typed field ([id], [guid], [whole_disk],
    [metaslab_array], [metaslab_shift], [ashift], [asize], [is_log],
    [create_txg]) a value its scanner refuses, the parse of the whole input
    fails, whatever follows: no record is returned; the error is "failed to
    parse <field>: <cause>", which names the field and the cause and does
    not mention the pool; a [GetPool] that fetched these lines returns that
    error and leaves the cache as it was. *)
Theorem C4_conversion_failure_aborts_naming_the_field
    (name currentGUID : string) (pre rest : list string) (rawLine : string)
    (st : loopState) (d : nat) (field val : string)
    (scan : string -> fmt.ScanError + Z) (cause : fmt.ScanError) :
  run_lines (init_loop name currentGUID) pre = inr st ->
  stack st <> [] ->
  scan_line rawLine = Some (d, field, val) ->
  In (field, scan) typed_fields ->
  scan val = inl cause ->
  parse_lines name currentGUID (pre ++ rawLine :: rest)
    = inl (ErrParseProp field cause) /\
  Error (ErrParseProp field cause)
    = "failed to parse " +:+ field +:+ ": " +:+ fmt.ScanError_Error cause /\
  forall z w,
    cache_lookup z (cacheKey name currentGUID) w = None ->
    fst (zdbOutput z (zdbArgs ++ [name]) w) = inr (pre ++ rawLine :: rest) ->
    fst (GetPool z name currentGUID w) = inl (ErrParseProp field cause) /\
    zdbCache (snd (GetPool z name currentGUID w)) = zdbCache w.
Proof.
  intros Hrun Hstack Hscan Hin Hfail.
  pose proof (run_lines_reaches_ok _ _ _ _ Hrun) as Hok.
  assert (Hparse : parse_lines name currentGUID (pre ++ rawLine :: rest)
                   = inl (ErrParseProp field cause)).
  { unfold parse_lines. rewrite run_lines_app, Hrun. simpl run_lines.
    unfold loop_body. rewrite Hscan.
    destruct (stack st) as [|fr stk] eqn:Hs; [congruence|].
    assert (Hne : field <> "type").
    { intros ->. unfold typed_fields in Hin. simpl in Hin.
      repeat (destruct Hin as [Hin|Hin]; [discriminate|]). destruct Hin. }
    destruct (handle_prop_line st d field val fr stk Hok Hs Hne)
      as (current & _ & ->).
    pose proof (parseProp_typed_failure current field scan val cause Hin Hfail) as Hp.
    destruct (parseProp current field val) as [c' oe]. simpl in Hp. subst oe.
    reflexivity. }
  split; [exact Hparse|]. split; [reflexivity|].
  intros z w Hmiss Hout. rewrite (GetPool_miss _ _ _ _ Hmiss).
  destruct (fetch_parse_store_cases z name currentGUID w)
    as [(err & Hr & ->)|[(Hr & ->)|[(lines & err & Hr & _ & Hp & ->)
       |(lines & p & Hr & _ & Hp & ->)]]];
    rewrite Hout in Hr.
  - discriminate.
  - destruct pre; discriminate.
  - injection Hr as <-. rewrite Hparse in Hp. injection Hp as <-.
    simpl. split; [reflexivity|]. apply zdbOutput_cache.
  - injection Hr as <-. rewrite Hparse in Hp. discriminate.
Qed.

(** C4 at the bad-field case of the specification. *)
Lemma C4_conversion_failure_witness :
  run_lines (init_loop "tank" "") [root_line]
    = inr (state_after "tank" "" [root_line]) /\
  stack (state_after "tank" "" [root_line]) <> [] /\
  scan_line bad_guid_line = Some (2%nat, "guid", "not-a-number") /\
  In ("guid", fmt.Sscan_uint64) typed_fields /\
  fmt.Sscan_uint64 "not-a-number" = inl fmt.ErrExpectedInteger /\
  parse_lines "tank" "" ([root_line] ++ bad_guid_line :: [])
    = inl (ErrParseProp "guid" fmt.ErrExpectedInteger).
Proof.
  assert (H1 : run_lines (init_loop "tank" "") [root_line]
               = inr (state_after "tank" "" [root_line]))
    by (vm_compute; reflexivity).
  assert (H2 : stack (state_after "tank" "" [root_line]) <> [])
    by (vm_compute; discriminate).
  assert (H3 : scan_line bad_guid_line = Some (2%nat, "guid", "not-a-number"))
    by (vm_compute; reflexivity).
  assert (H4 : In ("guid", fmt.Sscan_uint64) typed_fields)
    by (right; left; reflexivity).
  assert (H5 : fmt.Sscan_uint64 "not-a-number" = inl fmt.ErrExpectedInteger)
    by (vm_compute; reflexivity).
  repeat (split; [assumption|]).
  exact (proj1 (C4_conversion_failure_aborts_naming_the_field
                  "tank" "" [root_line] [] bad_guid_line
                  (state_after "tank" "" [root_line]) 2 "guid" "not-a-number"
                  fmt.Sscan_uint64 fmt.ErrExpectedInteger H1 H2 H3 H4 H5)).
Defined.

(** C4 as the specification words it fails: the error of the bad-field
    case names the field and not the pool ([tank]). *)
Lemma C4_error_does_not_name_the_pool :
  exists e,
    fst (GetPool (zdb_printing bad_guid_output 0) "tank" "" world0) = inl e /\
    Error e = "failed to parse guid: expected integer" /\
    Contains (Error e) "guid" = true /\
    Contains (Error e) "tank" = false.
Proof.
  exists (ErrParseProp "guid" fmt.ErrExpectedInteger).
  repeat split; vm_compute; reflexivity.
Qed.

(* ===================================================================== *)
(** * Empty output *)
(* ===================================================================== *)

Lemma TrimRight_only_newlines s :
  only_newlines s = true -> TrimRight s (String NL EmptyString) = EmptyString.
Proof.
  induction s as [|c s IH]; [reflexivity|].
  simpl. intros H. apply andb_true_iff in H as [Hc Hs].
  rewrite (IH Hs). rewrite Hc. reflexivity.
Qed.

Lemma TrimRight_empty_only_newlines s :
  TrimRight s (String NL EmptyString) = EmptyString -> only_newlines s = true.
Proof.
  induction s as [|c s IH]; [reflexivity|].
  simpl. destruct (TrimRight s (String NL EmptyString)) eqn:Ht; [|discriminate].
  rewrite (IH eq_refl). destruct (Ascii.eqb c NL); [reflexivity|discriminate].
Qed.

Lemma Split_nonempty s sep : Split s sep <> [].
Proof.
  destruct s as [|c s]; simpl; [discriminate|].
  destruct (Ascii.eqb c sep); [discriminate|].
  destruct (Split s sep); discriminate.
Qed.

(** Blank lines leave the state of the loop as it is. *)
Lemma run_lines_blank lines : forall st,
  (forall l, In l lines -> TrimSpace l = EmptyString) ->
  run_lines st lines = inr st.
Proof.
  induction lines as [|l lines IH]; intros st Hb; [reflexivity|].
  simpl. unfold loop_body, scan_line. rewrite (Hb l (or_introl eq_refl)).
  simpl. apply IH. intros l' Hin. apply Hb. right. exact Hin.
Qed.

(** ** White space and lines *)

Section WhiteSpace.
Import utf8.

#[local] Arguments DecodeRuneInString : simpl never.

Lemma high_byte_not_newline c :
  0x80 <= byte_of c -> Ascii.eqb c NL = false.
Proof.
  intros H. destruct (Ascii.eqb_spec c NL) as [->|_]; [|reflexivity].
  vm_compute in H. exfalso. apply H. reflexivity.
Qed.

Lemma is_cont_high b : is_cont b = true -> 0x80 <= b.
Proof. unfold is_cont. intros H. apply andb_true_iff in H as [H _]. lia. Qed.

Lemma in_range_spec lo hi b : in_range lo hi b = true -> lo <= b <= hi.
Proof. unfold in_range. intros H. apply andb_true_iff in H as [H1 H2]. lia. Qed.

(** The shape of a text that starts with a white space rune: the rune is
    one ASCII byte, or a lead byte followed by bytes above 0x7F; whatever
    follows these bytes has no part in the decoding. *)
Lemma decode_space c s' r w :
  DecodeRuneInString (String c s') = (r, w) ->
  unicode.IsSpace r = true ->
  exists pre t,
    s' = pre +:+ t /\
    String.length pre = (w - 1)%nat /\
    no_newline pre = true /\
    (Ascii.eqb c NL = true -> pre = EmptyString) /\
    forall t', DecodeRuneInString (String c (pre +:+ t')) = (r, w).
Proof.
  intros Hd Hs.
  assert (Herr : unicode.IsSpace RuneError = false) by reflexivity.
  assert (Hnl : (byte_of c <? RuneSelf) = false -> Ascii.eqb c NL = true -> False).
  { intros H0 Hc. apply Ascii.eqb_eq in Hc. subst c. vm_compute in H0. discriminate. }
  unfold DecodeRuneInString in Hd.
  destruct (byte_of c <? RuneSelf) eqn:H0.
  { injection Hd as <- <-. exists EmptyString, s'.
    repeat split; try reflexivity.
    intros t'. unfold DecodeRuneInString, String.append. rewrite H0. reflexivity. }
  destruct s' as [|c1 s1]; [injection Hd as <- <-; congruence|].
  destruct (in_range 194 223 (byte_of c)) eqn:H2.
  { destruct (is_cont (byte_of c1)) eqn:Hc1; [|injection Hd as <- <-; congruence].
    injection Hd as <- <-. exists (String c1 EmptyString), s1.
    split; [reflexivity|]. split; [reflexivity|].
    split; [simpl; rewrite (high_byte_not_newline c1 (is_cont_high _ Hc1)); reflexivity|].
    split; [intros Hc; destruct (Hnl eq_refl Hc)|].
    intros t'. unfold DecodeRuneInString, String.append.
    rewrite H0, H2, Hc1. reflexivity. }
  destruct s1 as [|c2 s2]; [injection Hd as <- <-; congruence|].
  set (lo1 := if byte_of c =? 224 then 160 else if byte_of c =? 240 then 144 else 128) in *.
  set (hi1 := if byte_of c =? 237 then 159 else if byte_of c =? 244 then 143 else 191) in *.
  assert (Hlo : 0x80 <= lo1).
  { unfold lo1. destruct (byte_of c =? 224); [lia|].
    destruct (byte_of c =? 240); lia. }
  destruct (in_range 224 239 (byte_of c)) eqn:H3.
  { destruct (in_range lo1 hi1 (byte_of c1) && is_cont (byte_of c2)) eqn:Hc;
      [|injection Hd as <- <-; congruence].
    injection Hd as <- <-. exists (String c1 (String c2 EmptyString)), s2.
    apply andb_true_iff in Hc as [Hc1 Hc2].
    split; [reflexivity|]. split; [reflexivity|].
    split.
    { simpl. apply in_range_spec in Hc1.
      rewrite (high_byte_not_newline c1) by lia.
      rewrite (high_byte_not_newline c2 (is_cont_high _ Hc2)). reflexivity. }
    split; [intros Hc; destruct (Hnl eq_refl Hc)|].
    intros t'. unfold DecodeRuneInString, String.append.
    rewrite H0, H2, H3. fold lo1 hi1. rewrite Hc1, Hc2. reflexivity. }
  destruct s2 as [|c3 s3]; [injection Hd as <- <-; congruence|].
  destruct (in_range 240 244 (byte_of c) && in_range lo1 hi1 (byte_of c1)
            && is_cont (byte_of c2) && is_cont (byte_of c3)) eqn:Hc;
    [|injection Hd as <- <-; congruence].
  injection Hd as <- <-.
  exists (String c1 (String c2 (String c3 EmptyString))), s3.
  apply andb_true_iff in Hc as [Hc Hc3].
  apply andb_true_iff in Hc as [Hc Hc2].
  apply andb_true_iff in Hc as [Hc4 Hc1].
  split; [reflexivity|]. split; [reflexivity|].
  split.
  { simpl. apply in_range_spec in Hc1.
    rewrite (high_byte_not_newline c1) by lia.
    rewrite (high_byte_not_newline c2 (is_cont_high _ Hc2)).
    rewrite (high_byte_not_newline c3 (is_cont_high _ Hc3)). reflexivity. }
  split; [intros Hc'; destruct (Hnl eq_refl Hc')|].
  intros t'. unfold DecodeRuneInString, String.append.
  rewrite H0, H2, H3. fold lo1 hi1. rewrite Hc4, Hc1, Hc2, Hc3. reflexivity.
Qed.

Lemma append_String c s t : String c s +:+ t = String c (s +:+ t).
Proof. reflexivity. Qed.

Lemma append_Empty t : EmptyString +:+ t = t.
Proof. reflexivity. Qed.

(** A piece without newline stays in front of the first line. *)
Lemma Split_app_no_newline pre t :
  no_newline pre = true ->
  Split (pre +:+ t) NL =
  match Split t NL with
  | p :: ps => (pre +:+ p) :: ps
  | [] => [pre]
  end.
Proof.
  induction pre as [|c pre IH]; intros Hn.
  - rewrite append_Empty.
    destruct (Split t NL) eqn:E; [destruct (Split_nonempty _ _ E)|reflexivity].
  - simpl in Hn. apply andb_true_iff in Hn as [Hc Hn].
    rewrite append_String. simpl Split.
    destruct (Ascii.eqb c NL); [discriminate|].
    rewrite (IH Hn). destruct (Split t NL) as [|p ps]; reflexivity.
Qed.

Lemma all_space_from_app pre t :
  all_space_from (String.length pre) (pre +:+ t) = all_space_from 0 t.
Proof.
  induction pre as [|c pre IH]; [reflexivity|].
  rewrite append_String. simpl. exact IH.
Qed.

Lemma length_append pre t :
  String.length (pre +:+ t) = (String.length pre + String.length t)%nat.
Proof.
  induction pre as [|c pre IH]; [reflexivity|].
  rewrite append_String. simpl. rewrite IH. reflexivity.
Qed.

(** The lines of a text of white space are texts of white space. *)
Lemma all_space_lines n : forall s,
  (String.length s <= n)%nat ->
  all_space s = true ->
  Forall (fun l => all_space l = true) (Split s NL).
Proof.
  induction n as [|n IH]; intros s Hlen Hs.
  - destruct s; [|simpl in Hlen; lia]. repeat constructor.
  - destruct s as [|c s']; [repeat constructor|].
    unfold all_space in Hs. simpl all_space_from in Hs.
    destruct (DecodeRuneInString (String c s')) as [r w] eqn:Hd.
    apply andb_true_iff in Hs as [Hr Hrest].
    destruct (decode_space c s' r w Hd Hr) as (pre & t & -> & Hpre & Hnn & Hnl & Hstable).
    rewrite <- Hpre, all_space_from_app in Hrest.
    assert (Ht : Forall (fun l => all_space l = true) (Split t NL)).
    { apply IH; [|exact Hrest]. simpl in Hlen. rewrite length_append in Hlen. lia. }
    simpl Split. destruct (Ascii.eqb c NL) eqn:Hc.
    + rewrite (Hnl eq_refl), append_Empty. constructor; [reflexivity|exact Ht].
    + rewrite (Split_app_no_newline pre t Hnn).
      destruct (Split t NL) as [|p ps].
      * constructor; [|constructor].
        unfold all_space. simpl all_space_from.
        specialize (Hstable EmptyString).
        replace (pre +:+ EmptyString) with pre in Hstable
          by (clear; induction pre as [|? ? IHp]; [reflexivity|rewrite append_String, <- IHp; reflexivity]).
        rewrite Hstable, Hr. simpl andb. rewrite <- Hpre.
        clear. induction pre; [reflexivity|simpl; assumption].
      * inversion Ht as [|? ? Hp Hps]; subst. constructor; [|exact Hps].
        unfold all_space. simpl all_space_from.
        rewrite (Hstable p), Hr. simpl andb.
        rewrite <- Hpre, all_space_from_app. exact Hp.
Qed.

(** The lines kept after the final newlines are cut are lines of the
    whole text. *)
Lemma Split_cons c s :
  Split (String c s) NL =
  if Ascii.eqb c NL then EmptyString :: Split s NL
  else match Split s NL with
       | p :: ps => String c p :: ps
       | [] => [String c EmptyString]
       end.
Proof. reflexivity. Qed.

Lemma TrimRight_cons c s cutset :
  TrimRight (String c s) cutset =
  match TrimRight s cutset with
  | EmptyString => if mem_byte c cutset then EmptyString else String c EmptyString
  | t => String c t
  end.
Proof. reflexivity. Qed.

Lemma Split_TrimRight s :
  exists extra,
    Split s NL = Split (TrimRight s (String NL EmptyString)) NL ++ extra.
Proof.
  induction s as [|c s IH]; [exists []; reflexivity|].
  destruct IH as [extra IH]. rewrite TrimRight_cons, Split_cons, IH.
  destruct (TrimRight s (String NL EmptyString)) as [|c0 t0] eqn:Ht.
  - change (mem_byte c (String NL EmptyString)) with (Ascii.eqb c NL || false).
    rewrite orb_false_r.
    destruct (Ascii.eqb c NL) eqn:Hc.
    + exists (EmptyString :: extra). reflexivity.
    + exists extra. rewrite Split_cons, Hc. reflexivity.
  - rewrite (Split_cons c (String c0 t0)).
    destruct (Ascii.eqb c NL) eqn:Hc; [exists extra; reflexivity|].
    destruct (Split (String c0 t0) NL) as [|p ps] eqn:Hsp;
      [destruct (Split_nonempty _ _ Hsp)|].
    exists extra. reflexivity.
Qed.

Lemma all_space_TrimLeft s : forall skip,
  all_space_from skip s = true ->
  TrimLeftFunc_from unicode.IsSpace skip s = EmptyString.
Proof.
  induction s as [|c s IH]; intros skip H; [reflexivity|].
  simpl in *. destruct skip as [|k]; [|apply IH; exact H].
  destruct (DecodeRuneInString (String c s)) as [r w].
  apply andb_true_iff in H as [Hr H]. rewrite Hr. apply IH. exact H.
Qed.

(** A text of white space is blank for [TrimSpace]. *)
Lemma all_space_TrimSpace s : all_space s = true -> TrimSpace s = EmptyString.
Proof.
  intros H. unfold TrimSpace, TrimFunc, TrimLeftFunc.
  rewrite (all_space_TrimLeft s 0 H). reflexivity.
Qed.

(** Every line of an output of white space is blank. *)
Lemma white_space_lines_blank stdout l :
  all_space stdout = true ->
  In l (Split (TrimRight stdout (String NL EmptyString)) NL) ->
  TrimSpace l = EmptyString.
Proof.
  intros Hs Hin. apply all_space_TrimSpace.
  pose proof (all_space_lines _ stdout (le_n _) Hs) as HF.
  destruct (Split_TrimRight stdout) as [extra He]. rewrite He in HF.
  rewrite Forall_forall in HF. apply HF.
  apply list_elem_of_In. apply in_or_app. left. exact Hin.
Qed.

End WhiteSpace.

(** C5 (amended).  For a call that fetches (no live cache entry) and whose
    run succeeds with output [stdout]: when [stdout] is empty or made of
    newlines only, [GetPool] returns the no-output error for the pool and
    no record; when [stdout] is white space only and has a character other
    than newline, [GetPool] succeeds, with a record that has the name and
    GUID of the call, an empty version and no children. *)
Theorem C5_no_output_error_for_newlines_only
    (z : zdb) (name currentGUID : string) (w w' : World) (stdout stderr : string) :
  cache_lookup z (cacheKey name currentGUID) w = None ->
  RunBytes (cmd z) (zdbArgs ++ [name]) w = (inr (stdout, stderr), w') ->
  (only_newlines stdout = true ->
     GetPool z name currentGUID w = (inl (ErrNoOutput name), w')) /\
  (all_space stdout = true -> only_newlines stdout = false ->
     TrimSpace stdout = EmptyString /\
     fst (GetPool z name currentGUID w) = inr (mkZDBPool name currentGUID "" [])).
Proof.
  intros Hmiss Hrun. rewrite (GetPool_miss _ _ _ _ Hmiss).
  unfold fetch_parse_store, zdbOutput. rewrite Hrun. split.
  - intros Hnl. rewrite (TrimRight_only_newlines _ Hnl). reflexivity.
  - intros Hws Hnl. split; [apply all_space_TrimSpace; exact Hws|].
    destruct (String.eqb_spec (TrimRight stdout (String NL EmptyString)) "")
      as [He|_].
    { apply TrimRight_empty_only_newlines in He. congruence. }
    pose proof (Split_nonempty (TrimRight stdout (String NL EmptyString)) NL) as Hne.
    pose proof (fun l => white_space_lines_blank stdout l Hws) as Hblank.
    destruct (Split _ NL) as [|l lines] eqn:Hsp; [congruence|].
    unfold parse_lines. rewrite (run_lines_blank (l :: lines) _ Hblank).
    simpl. destruct (0 <? cacheTTL z); reflexivity.
Qed.

(** C5 at an output of two newlines. *)
Lemma C5_no_output_witness :
  GetPool (zdb_printing (NLs +:+ NLs) 0) "tank" "" world0
    = (inl (ErrNoOutput "tank"), mkWorld ∅ 0 [("zdb", ["-C"; "tank"])]).
Proof.
  refine (proj1 (C5_no_output_error_for_newlines_only
    (zdb_printing (NLs +:+ NLs) 0) "tank" "" world0
    (mkWorld ∅ 0 [("zdb", ["-C"; "tank"])]) (NLs +:+ NLs) "" _ _) _);
    vm_compute; reflexivity.
Defined.

(** C5 as the specification words it fails: an output of one space is
    white space only, and [GetPool] returns a record for it, not an
    error. *)
Lemma C5_single_space_is_parsed :
  all_space " " = true /\
  TrimSpace " " = EmptyString /\
  GetPool (zdb_printing " " 0) "tank" "" world0
    = (inr (mkZDBPool "tank" "" "" []), mkWorld ∅ 0 [("zdb", ["-C"; "tank"])]).
Proof. repeat split; vm_compute; reflexivity. Qed.

(* ===================================================================== *)
(** * The cache *)
(* ===================================================================== *)

Section Cache.

Lemma cache_lookup_live z key w entry :
  0 < cacheTTL z -> zdbCache w !! key = Some entry -> now w < expiry entry ->
  cache_lookup z key w = Some (entry_pool entry).
Proof.
  intros Httl He Hlive. unfold cache_lookup. rewrite He.
  destruct (Z.ltb_spec 0 (cacheTTL z)); [|lia].
  destruct (Z.ltb_spec (now w) (expiry entry)); [reflexivity|lia].
Qed.

Lemma cache_lookup_Some z key w p :
  cache_lookup z key w = Some p ->
  0 < cacheTTL z /\
  exists entry, zdbCache w !! key = Some entry /\ entry_pool entry = p /\
                now w < expiry entry.
Proof.
  unfold cache_lookup.
  destruct (Z.ltb_spec 0 (cacheTTL z)); [|discriminate].
  destruct (zdbCache w !! key) as [entry|]; [|discriminate].
  destruct (Z.ltb_spec (now w) (expiry entry)); [|discriminate].
  intros [= <-]. eauto.
Qed.

(** A successful fetch with caching enabled: what is stored. *)
Lemma fetch_parse_store_success z name currentGUID w p w' :
  0 < cacheTTL z ->
  fetch_parse_store z name currentGUID w = (inr p, w') ->
  zdbCache w' =
    <[cacheKey name currentGUID := mkEntry p currentGUID (now w' + cacheTTL z)]>
      (zdbCache w) /\
  (exists call, CallHistory w' = CallHistory w ++ [call]) /\
  exists lines,
    fst (zdbOutput z (zdbArgs ++ [name]) w) = inr lines /\
    parse_lines name currentGUID lines = inr p.
Proof.
  intros Httl H.
  destruct (fetch_parse_store_cases z name currentGUID w)
    as [(err & _ & E)|[(_ & E)|[(lines & err & _ & _ & _ & E)
       |(lines & p' & Hr & _ & Hp & E)]]];
    rewrite E in H; try discriminate.
  injection H as <- <-.
  destruct (Z.ltb_spec 0 (cacheTTL z)); [|lia]. simpl.
  rewrite zdbOutput_cache. split; [reflexivity|].
  split; [apply zdbOutput_calls|]. eauto.
Qed.

(** A failing call leaves the cache as it was. *)
Lemma fetch_parse_store_failure z name currentGUID w e w' :
  fetch_parse_store z name currentGUID w = (inl e, w') ->
  zdbCache w' = zdbCache w /\
  (fst (zdbOutput z (zdbArgs ++ [name]) w) = inl e \/
   (fst (zdbOutput z (zdbArgs ++ [name]) w) = inr [] /\ e = ErrNoOutput name) \/
   exists lines,
     fst (zdbOutput z (zdbArgs ++ [name]) w) = inr lines /\
     parse_lines name currentGUID lines = inl e).
Proof.
  intros H.
  destruct (fetch_parse_store_cases z name currentGUID w)
    as [(err & Hr & E)|[(Hr & E)|[(lines & err & Hr & _ & Hp & E)
       |(lines & p' & Hr & _ & Hp & E)]]];
    rewrite E in H; try discriminate; injection H as <- <-;
    (split; [apply zdbOutput_cache|]); eauto.
Qed.

End Cache.

(** C6.  With caching enabled (a TTL above zero): when the cache holds an
    entry for the key of the call whose expiry is after the current time,
    [GetPool] returns the record of that entry and the world is as before
    (nothing was run, the cache is the same); and when no live entry is
    found and the call succeeds, one command was run, the record is the
    parse of its output, and the cache afterwards is the former cache with
    the record stored under the key, its expiry being the time of the
    store plus the TTL. *)
Theorem C6_live_entry_served_fresh_record_stored
    (z : zdb) (name currentGUID : string) (w : World) :
  0 < cacheTTL z ->
  (forall entry,
     zdbCache w !! cacheKey name currentGUID = Some entry ->
     now w < expiry entry ->
     GetPool z name currentGUID w = (inr (entry_pool entry), w)) /\
  (forall p w',
     cache_lookup z (cacheKey name currentGUID) w = None ->
     GetPool z name currentGUID w = (inr p, w') ->
     zdbCache w' =
       <[cacheKey name currentGUID := mkEntry p currentGUID (now w' + cacheTTL z)]>
         (zdbCache w) /\
     (exists call, CallHistory w' = CallHistory w ++ [call]) /\
     exists lines,
       fst (zdbOutput z (zdbArgs ++ [name]) w) = inr lines /\
       parse_lines name currentGUID lines = inr p).
Proof.
  intros Httl. split.
  - intros entry He Hlive. apply GetPool_hit.
    apply cache_lookup_live; assumption.
  - intros p w' Hmiss H. rewrite (GetPool_miss _ _ _ _ Hmiss) in H.
    eapply fetch_parse_store_success; eassumption.
Qed.

(** C6 at the caching test: the second call, right after the first, is
    served from the cache and runs nothing. *)
Lemma C6_second_call_witness :
  0 < cacheTTL (zdb_printing ZDBOutput ttl_100ms) /\
  zdbCache world_after_first_call !! cacheKey "tank" ""
    = Some (mkEntry sample_pool "" ttl_100ms) /\
  now world_after_first_call < ttl_100ms /\
  CallHistory world_after_first_call = [("zdb", ["-C"; "tank"])] /\
  GetPool (zdb_printing ZDBOutput ttl_100ms) "tank" "" world_after_first_call
    = (inr sample_pool, world_after_first_call).
Proof.
  assert (H1 : 0 < cacheTTL (zdb_printing ZDBOutput ttl_100ms))
    by (vm_compute; reflexivity).
  assert (H2 : zdbCache world_after_first_call !! cacheKey "tank" ""
               = Some (mkEntry sample_pool "" ttl_100ms))
    by (vm_compute; reflexivity).
  assert (H3 : now world_after_first_call < ttl_100ms)
    by (vm_compute; reflexivity).
  repeat (split; [assumption|]).
  split; [vm_compute; reflexivity|].
  exact (proj1 (C6_live_entry_served_fresh_record_stored
                  (zdb_printing ZDBOutput ttl_100ms) "tank" ""
                  world_after_first_call H1)
               (mkEntry sample_pool "" ttl_100ms) H2 H3).
Defined.

(* ===================================================================== *)
(** * Caching disabled *)
(* ===================================================================== *)

(** C7 (amended).  For a client whose TTL is zero or less, every [GetPool]
    takes the fetching path: one command is run, the result is the parse
    of its output, the cache is not written, and it is not read (the result
    is the same whatever the cache holds).  [NewClient] gives such a client
    exactly for [ZDBCacheTTLSeconds = 0]; a negative number of seconds
    selects a TTL of five minutes, with caching enabled. *)
Theorem C7_nonpositive_ttl_disables_caching
    (z : zdb) (name currentGUID : string) (w : World) :
  cacheTTL z <= 0 ->
  GetPool z name currentGUID w = fetch_parse_store z name currentGUID w /\
  fst (GetPool z name currentGUID w) =
    match fst (zdbOutput z (zdbArgs ++ [name]) w) with
    | inl err => inl err
    | inr [] => inl (ErrNoOutput name)
    | inr lines => parse_lines name currentGUID lines
    end /\
  (exists call,
     CallHistory (snd (GetPool z name currentGUID w)) = CallHistory w ++ [call]) /\
  zdbCache (snd (GetPool z name currentGUID w)) = zdbCache w /\
  (forall cache',
     fst (GetPool z name currentGUID (mkWorld cache' (now w) (CallHistory w)))
       = fst (GetPool z name currentGUID w)) /\
  (forall opts,
     (cacheTTL (ZDB (NewClient opts)) <= 0 <-> ZDBCacheTTLSeconds opts = 0) /\
     (ZDBCacheTTLSeconds opts < 0 -> cacheTTL (ZDB (NewClient opts)) = 5 * Minute)).
Proof.
  intros Httl.
  assert (Hoff : (0 <? cacheTTL z) = false) by (apply Z.ltb_ge; exact Httl).
  assert (Hfst : forall w0,
    fst (fetch_parse_store z name currentGUID w0) =
    match fst (zdbOutput z (zdbArgs ++ [name]) w0) with
    | inl err => inl err
    | inr [] => inl (ErrNoOutput name)
    | inr lines => parse_lines name currentGUID lines
    end).
  { intros w0. unfold fetch_parse_store. rewrite Hoff.
    destruct (zdbOutput z (zdbArgs ++ [name]) w0) as [[err|[|l lines]] w1];
      try reflexivity.
    simpl. destruct (parse_lines name currentGUID (l :: lines)); reflexivity. }
  assert (Hsnd : snd (fetch_parse_store z name currentGUID w)
                 = snd (zdbOutput z (zdbArgs ++ [name]) w)).
  { unfold fetch_parse_store. rewrite Hoff.
    destruct (zdbOutput z (zdbArgs ++ [name]) w) as [[err|[|l lines]] w1];
      try reflexivity.
    simpl. destruct (parse_lines name currentGUID (l :: lines)); reflexivity. }
  assert (Hget : forall w0, GetPool z name currentGUID w0
                            = fetch_parse_store z name currentGUID w0).
  { intros w0. apply GetPool_miss. apply cache_lookup_disabled. exact Httl. }
  split; [apply Hget|]. rewrite !Hget, Hsnd.
  split; [apply Hfst|]. split; [apply zdbOutput_calls|].
  split; [apply zdbOutput_cache|]. split.
  - intros cache'. rewrite Hget, !Hfst.
    unfold zdbOutput.
    pose proof (RunBytes_cache_irrelevant (cmd z) (zdbArgs ++ [name]) w cache')
      as (Hr & _).
    destruct (RunBytes (cmd z) (zdbArgs ++ [name]) (mkWorld cache' (now w) (CallHistory w)))
      as [r1 w1].
    destruct (RunBytes (cmd z) (zdbArgs ++ [name]) w) as [r2 w2].
    simpl in Hr. subst r2. destruct r1 as [e|[out err]]; [reflexivity|].
    destruct (String.eqb _ ""); reflexivity.
  - intros opts. unfold NewClient, Minute, Second. simpl.
    destruct (Z.ltb_spec (ZDBCacheTTLSeconds opts) 0); split; try lia.
Qed.

(** C7 at a client with TTL zero: a second call after a successful first
    one runs the tool again. *)
Lemma C7_zero_ttl_witness :
  cacheTTL (zdb_printing ZDBOutput 0) <= 0 /\
  CallHistory (snd (GetPool (zdb_printing ZDBOutput 0) "tank" ""
                      (snd (GetPool (zdb_printing ZDBOutput 0) "tank" "" world0))))
    = [("zdb", ["-C"; "tank"]); ("zdb", ["-C"; "tank"])] /\
  zdbCache (snd (GetPool (zdb_printing ZDBOutput 0) "tank" "" world0))
    = zdbCache world0.
Proof.
  assert (H : cacheTTL (zdb_printing ZDBOutput 0) <= 0) by (vm_compute; discriminate).
  split; [exact H|]. split; [vm_compute; reflexivity|].
  exact (proj1 (proj2 (proj2 (proj2
    (C7_nonpositive_ttl_disables_caching
       (zdb_printing ZDBOutput 0) "tank" "" world0 H))))).
Defined.

(** C7 as the specification words it fails: with the option set to -1
    second, a value below zero, the client caches for five minutes, and a
    second call is served from the cache without a run. *)
Lemma C7_negative_seconds_enable_caching :
  ZDBCacheTTLSeconds opts_negative_ttl <= 0 /\
  cacheTTL (ZDB (NewClient opts_negative_ttl)) = 5 * Minute /\
  CallHistory (snd (GetPool (ZDB (NewClient opts_negative_ttl)) "tank" "" world0))
    = [("zdb", ["-C"; "tank"])] /\
  zdbCache (snd (GetPool (ZDB (NewClient opts_negative_ttl)) "tank" "" world0))
    <> zdbCache world0 /\
  CallHistory (snd (GetPool (ZDB (NewClient opts_negative_ttl)) "tank" ""
                      (snd (GetPool (ZDB (NewClient opts_negative_ttl)) "tank" "" world0))))
    = [("zdb", ["-C"; "tank"])].
Proof.
  split; [vm_compute; discriminate|].
  split; [vm_compute; reflexivity|].
  split; [vm_compute; reflexivity|].
  split; [|vm_compute; reflexivity].
  intros H. apply (f_equal (fun m => m !! "tank")) in H.
  vm_compute in H. discriminate.
Qed.

(* ===================================================================== *)
(** * Failures and the cache *)
(* ===================================================================== *)

(** C8.  Whenever [GetPool] returns an error, the cache after the call is
    the cache before it: nothing is written for the key and an entry that
    was there, expired or not, is still there; and the error is the one of
    the step that failed: the error of the run, the no-output error for the
    pool, or the error of the parse. *)
Theorem C8_failure_leaves_cache_untouched
    (z : zdb) (name currentGUID : string) (w w' : World) (e : error) :
  GetPool z name currentGUID w = (inl e, w') ->
  zdbCache w' = zdbCache w /\
  (forall key, zdbCache w' !! key = zdbCache w !! key) /\
  (fst (zdbOutput z (zdbArgs ++ [name]) w) = inl e \/
   (fst (zdbOutput z (zdbArgs ++ [name]) w) = inr [] /\ e = ErrNoOutput name) \/
   exists lines,
     fst (zdbOutput z (zdbArgs ++ [name]) w) = inr lines /\
     parse_lines name currentGUID lines = inl e).
Proof.
  intros H. unfold GetPool in H.
  destruct (cache_lookup z (cacheKey name currentGUID) w) as [p|];
    [discriminate|].
  destruct (fetch_parse_store_failure _ _ _ _ _ _ H) as [Hc Hk].
  split; [exact Hc|]. split; [|exact Hk]. intros key. rewrite Hc. reflexivity.
Qed.

(** C8 at the bad-field output, with caching enabled. *)
Lemma C8_failure_witness :
  GetPool (zdb_printing bad_guid_output ttl_100ms) "tank" "" world0
    = (inl (ErrParseProp "guid" fmt.ErrExpectedInteger),
       mkWorld ∅ 0 [("zdb", ["-C"; "tank"])]) /\
  zdbCache (mkWorld ∅ 0 [("zdb", ["-C"; "tank"])]) = zdbCache world0.
Proof.
  assert (H : GetPool (zdb_printing bad_guid_output ttl_100ms) "tank" "" world0
              = (inl (ErrParseProp "guid" fmt.ErrExpectedInteger),
                 mkWorld ∅ 0 [("zdb", ["-C"; "tank"])]))
    by (vm_compute; reflexivity).
  split; [exact H|].
  exact (proj1 (C8_failure_leaves_cache_untouched _ _ _ _ _ _ H)).
Defined.

(* ===================================================================== *)
(** * The GUID of the record *)
(* ===================================================================== *)

Lemma handle_line_GUID st d prop val st' :
  handle_line st d prop val = inr st' ->
  PoolGUID (pool st') = PoolGUID (pool st).
Proof.
  unfold handle_line.
  destruct (_ && _).
  { intros [= <-]. simpl. apply parseLine_GUID. }
  destruct (String.eqb prop "type").
  { destruct (pop_frames d (stack st)) as [|fr ?].
    - intros [= <-]. reflexivity.
    - destruct (deref _ _); [|discriminate]. intros [= <-]. reflexivity. }
  destruct (stack st) as [|fr ?]; [intros [= <-]; reflexivity|].
  destruct (deref _ _) as [current|]; [|discriminate].
  destruct (parseProp current prop val) as [c' [err|]]; [discriminate|].
  intros [= <-]. reflexivity.
Qed.

Lemma run_lines_GUID lines : forall st st',
  run_lines st lines = inr st' -> PoolGUID (pool st') = PoolGUID (pool st).
Proof.
  induction lines as [|l lines IH]; intros st st'; simpl.
  - intros [= <-]. reflexivity.
  - destruct (loop_body st l) as [e|st1] eqn:Hl; [discriminate|].
    intros H. rewrite (IH _ _ H). unfold loop_body in Hl.
    destruct (scan_line l) as [[[d prop] val]|].
    + eapply handle_line_GUID. exact Hl.
    + injection Hl as <-. reflexivity.
Qed.

(** C9.  A record that [GetPool] returns from a fresh fetch and parse (no
    live cache entry was found) has the GUID the caller passed; no line of
    the input changes the GUID of the record under construction, from any
    state of the loop. *)
Theorem C9_fresh_record_has_the_callers_guid
    (z : zdb) (name currentGUID : string) (w w' : World) (p : ZDBPool) :
  cache_lookup z (cacheKey name currentGUID) w = None ->
  GetPool z name currentGUID w = (inr p, w') ->
  PoolGUID p = currentGUID /\
  (forall lines st st',
     run_lines st lines = inr st' -> PoolGUID (pool st') = PoolGUID (pool st)).
Proof.
  intros Hmiss H. split; [|intros lines st st'; apply run_lines_GUID].
  rewrite (GetPool_miss _ _ _ _ Hmiss) in H.
  destruct (fetch_parse_store_cases z name currentGUID w)
    as [(err & _ & E)|[(_ & E)|[(lines & err & _ & _ & _ & E)
       |(lines & p' & _ & _ & Hp & E)]]];
    rewrite E in H; try discriminate.
  injection H as <- _. unfold parse_lines in Hp.
  destruct (run_lines (init_loop name currentGUID) lines) as [e|st] eqn:Hr;
    [discriminate|].
  injection Hp as <-. apply (run_lines_GUID _ _ _ Hr).
Qed.

(** C9 at the sample output, fetched for the GUID [4242]. *)
Lemma C9_fresh_guid_witness :
  cache_lookup (zdb_printing ZDBOutput ttl_100ms) (cacheKey "tank" "4242") world0 = None /\
  PoolGUID (match fst (GetPool (zdb_printing ZDBOutput ttl_100ms) "tank" "4242" world0) with
            | inr p => p
            | inl _ => mkZDBPool "" "" "" []
            end) = "4242".
Proof.
  assert (Hm : cache_lookup (zdb_printing ZDBOutput ttl_100ms)
                 (cacheKey "tank" "4242") world0 = None)
    by (vm_compute; reflexivity).
  split; [exact Hm|].
  destruct (GetPool (zdb_printing ZDBOutput ttl_100ms) "tank" "4242" world0)
    as [[e|p] w'] eqn:Hg.
  - vm_compute in Hg. discriminate.
  - simpl.
    exact (proj1 (C9_fresh_record_has_the_callers_guid _ _ _ _ _ _ Hm Hg)).
Defined.

(* ===================================================================== *)
(** * The cache key *)
(* ===================================================================== *)

(** C10.  The cache key is not injective: the identities (name [a|b], no
    GUID) and (name [a], GUID [b]) differ and have the same key.  For any
    two identities with the same key and caching enabled, after a
    successful [GetPool] for the first the cache holds a live entry with
    the record returned, and a [GetPool] for the second made on that cache
    before the entry expires returns that same record and runs nothing. *)
Theorem C10_cache_key_not_injective :
  ("a|b", "") <> ("a", "b") /\
  cacheKey "a|b" "" = cacheKey "a" "b" /\
  forall (z : zdb) (n1 g1 n2 g2 : string) (w w1 : World) (p : ZDBPool),
    cacheKey n1 g1 = cacheKey n2 g2 ->
    0 < cacheTTL z ->
    GetPool z n1 g1 w = (inr p, w1) ->
    exists entry,
      zdbCache w1 !! cacheKey n2 g2 = Some entry /\
      entry_pool entry = p /\
      now w1 < expiry entry /\
      forall w2,
        zdbCache w2 = zdbCache w1 -> now w2 < expiry entry ->
        GetPool z n2 g2 w2 = (inr p, w2).
Proof.
  split; [discriminate|]. split; [reflexivity|].
  intros z n1 g1 n2 g2 w w1 p Hkey Httl H.
  assert (Hserve : forall entry,
            zdbCache w1 !! cacheKey n2 g2 = Some entry -> entry_pool entry = p ->
            forall w2, zdbCache w2 = zdbCache w1 -> now w2 < expiry entry ->
                       GetPool z n2 g2 w2 = (inr p, w2)).
  { intros entry He Hp w2 Hc Hlive. rewrite <- Hp. apply GetPool_hit.
    apply cache_lookup_live; [exact Httl|rewrite Hc; exact He|exact Hlive]. }
  unfold GetPool in H.
  destruct (cache_lookup z (cacheKey n1 g1) w) as [p0|] eqn:Hl.
  - injection H as <- <-.
    destruct (cache_lookup_Some _ _ _ _ Hl) as (_ & entry & He & Hp & Hlive).
    rewrite Hkey in He. exists entry. eauto.
  - destruct (fetch_parse_store_success _ _ _ _ _ _ Httl H) as (Hc & _ & _).
    exists (mkEntry p g1 (now w1 + cacheTTL z)).
    assert (He : zdbCache w1 !! cacheKey n2 g2
                 = Some (mkEntry p g1 (now w1 + cacheTTL z))).
    { rewrite Hc, Hkey. apply lookup_insert_eq. }
    split; [exact He|]. split; [reflexivity|]. split; [simpl; lia|].
    apply Hserve; [exact He|reflexivity].
Qed.

(** C10 at the sample output: the record fetched for the pool named [a|b]
    is what a call for the pool [a] with GUID [b] gets. *)
Lemma C10_shared_key_witness :
  GetPool (zdb_printing ZDBOutput ttl_100ms) "a" "b"
    (snd (GetPool (zdb_printing ZDBOutput ttl_100ms) "a|b" "" world0))
  = (fst (GetPool (zdb_printing ZDBOutput ttl_100ms) "a|b" "" world0),
     snd (GetPool (zdb_printing ZDBOutput ttl_100ms) "a|b" "" world0)).
Proof.
  destruct (GetPool (zdb_printing ZDBOutput ttl_100ms) "a|b" "" world0)
    as [[e|p] w1] eqn:Hg; [vm_compute in Hg; discriminate|].
  destruct (proj2 (proj2 C10_cache_key_not_injective)
              (zdb_printing ZDBOutput ttl_100ms) "a|b" "" "a" "b" world0 w1 p
              eq_refl eq_refl Hg)
    as (entry & _ & _ & Hlive & Hserve).
  simpl. apply Hserve; [reflexivity|exact Hlive].
Defined.

(* ===================================================================== *)
(** * The sample of the specification *)
(* ===================================================================== *)

(** C2 (amended).  The sample output has thirteen lines (version, name,
    the type line and ten property lines) and no final newline to cut.
    Parsing it for any name and GUID of the call gives a record with
    version 5000, name tank, the GUID of the call, and exactly one
    top-level node: type root, ID 0, GUID 12345678901234567890, path
    /dev/ada0p3, WholeDisk 0, MetaslabArray 71, MetaslabShift 24, Ashift 9,
    Asize 10737418240, IsLog 0, CreateTXG 4, no children, and a property
    map of exactly eleven string entries, for type and the ten properties
    id to create_txg; version and name are fields of the record and have
    no entry in the map of the node. *)
Theorem C2_sample_parses_to_one_root_node :
  length (Split ZDBOutput NL) = 13%nat /\
  TrimRight ZDBOutput (String NL EmptyString) = ZDBOutput /\
  (forall name currentGUID,
     parse_lines name currentGUID (Split ZDBOutput NL)
       = inr (mkZDBPool "tank" currentGUID "5000" [sample_root])) /\
  size (Properties sample_root) = 11%nat /\
  (forall k v, Properties sample_root !! k = Some v <-> In (k, v) sample_properties) /\
  Properties sample_root !! "version" = None /\
  Properties sample_root !! "name" = None.
Proof.
  split; [vm_compute; reflexivity|].
  split; [vm_compute; reflexivity|].
  split; [intros name currentGUID; vm_compute; reflexivity|].
  split; [vm_compute; reflexivity|].
  split; [|split; vm_compute; reflexivity].
  intros k v.
  change (Properties sample_root)
    with (list_to_map sample_properties : gmap string string).
  rewrite <- list_elem_of_In. symmetry. apply elem_of_list_to_map.
  unfold sample_properties. simpl.
  repeat (apply NoDup_cons; split; [rewrite !list_elem_of_In; simpl; intuition discriminate|]).
  apply NoDup_nil_2.
Qed.

(** C2 as the specification words it fails: the sample has thirteen lines,
    not twelve, and the map of the node has eleven entries, not twelve
    (nor thirteen: the version and name lines go to the record). *)
Lemma C2_sample_map_has_eleven_entries :
  length (Split ZDBOutput NL) <> 12%nat /\
  exists p c,
    parse_lines "tank" "" (Split ZDBOutput NL) = inr p /\
    PoolChildren p = [c] /\
    size (Properties c) = 11%nat /\
    size (Properties c) <> 12%nat /\
    Properties c !! "version" = None /\
    Properties c !! "name" = None.
Proof.
  split; [vm_compute; discriminate|].
  exists (mkZDBPool "tank" "" "5000" [sample_root]), sample_root.
  split; [vm_compute; reflexivity|]. split; [reflexivity|].
  split; [vm_compute; reflexivity|].
  split; [vm_compute; discriminate|].
  split; vm_compute; reflexivity.
Qed.

(* ===================================================================== *)
(** * Further properties of the loop of [GetPool] *)
(* ===================================================================== *)

Section TreeShape.

Lemma forest_types_cons c cs :
  forest_types (c :: cs) = preorder_types c ++ forest_types cs.
Proof. reflexivity. Qed.

Lemma preorder_types_eq c :
  preorder_types c = Type_ c :: forest_types (Children c).
Proof.
  destruct c as [ty ? ? ? ? ? ? ? ? ? ? ? kids]. reflexivity.
Qed.

Lemma forest_types_app a b :
  forest_types (a ++ b) = forest_types a ++ forest_types b.
Proof. unfold forest_types. apply flat_map_app. Qed.

(** A list whose last index is [i] is what stands before [i] followed by
    the element at [i]. *)
Lemma last_index_split (cs : list ZDBPoolChild) i c :
  cs !! i = Some c -> S i = length cs -> cs = take i cs ++ [c].
Proof.
  intros Hc Hl. rewrite <- (take_drop i cs) at 1. f_equal.
  rewrite (drop_S cs c i Hc). rewrite drop_ge by lia. reflexivity.
Qed.

Lemma insert_last_index (cs : list ZDBPoolChild) i c x :
  cs !! i = Some c -> S i = length cs -> <[i := x]> cs = take i cs ++ [x].
Proof.
  intros Hc Hl. rewrite (last_index_split cs i c Hc Hl) at 1.
  assert (Hlt : length (take i cs) = i) by (rewrite length_take; lia).
  rewrite insert_app_r_alt by lia. rewrite Hlt, Nat.sub_diag. reflexivity.
Qed.

(** A write at the end of the right edge that keeps the type of the node
    and adds [extra] at the end of the types under it adds [extra] at the
    end of the types of the whole tree. *)
Lemma forest_types_store cs p old v extra :
  rightmost cs p -> deref cs p = Some old ->
  Type_ v = Type_ old ->
  forest_types (Children v) = forest_types (Children old) ++ extra ->
  forest_types (store cs p v) = forest_types cs ++ extra.
Proof.
  revert cs. induction p as [|i p IH]; intros cs Hr Hd Hty Hk; [discriminate|].
  destruct Hr as (c0 & Hc0 & Hl & Hr).
  rewrite deref_cons, Hc0 in Hd. simpl store. rewrite Hc0.
  rewrite (insert_last_index cs i c0 _ Hc0 Hl).
  rewrite (last_index_split cs i c0 Hc0 Hl) at 2.
  rewrite !forest_types_app, <- app_assoc. f_equal.
  rewrite !forest_types_cons.
  change (forest_types []) with (@nil string). rewrite !app_nil_r.
  destruct p as [|j p].
  - injection Hd as ->. rewrite !preorder_types_eq, Hty, Hk. reflexivity.
  - rewrite !preorder_types_eq.
    change (Type_ (set_Children (store (Children c0) (j :: p) v) c0))
      with (Type_ c0).
    change (Children (set_Children (store (Children c0) (j :: p) v) c0))
      with (store (Children c0) (j :: p) v).
    rewrite (IH (Children c0) Hr Hd Hty Hk). reflexivity.
Qed.

End TreeShape.

Section MoreOfTheLoop.

Lemma parseProp_Type c prop val :
  prop <> "type" -> Type_ (fst (parseProp c prop val)) = Type_ c.
Proof.
  intros Hne. unfold parseProp, scan_into.
  destruct (String.eqb_spec prop "type") as [->|_]; [congruence|].
  repeat match goal with
  | |- context [if ?b then _ else _] => destruct b
  | |- context [match ?x with inl _ => _ | inr _ => _ end] => destruct x
  end; reflexivity.
Qed.

(** A failure of [parseProp] comes from the scanner of a typed field. *)
Lemma parseProp_failure_inv c prop val c' e :
  parseProp c prop val = (c', Some e) ->
  exists scan cause,
    In (prop, scan) typed_fields /\ scan val = inl cause /\
    e = ErrParseProp prop cause.
Proof.
  unfold parseProp, scan_into, typed_fields.
  repeat match goal with
  | |- context [String.eqb prop ?k] =>
    let E := fresh "E" in
    destruct (String.eqb prop k) eqn:E;
    [apply String.eqb_eq in E; subst prop|]
  end;
  try (intros H; discriminate H);
  match goal with
  | |- context [match ?s val with inl _ => _ | inr _ => _ end] =>
    destruct (s val) as [cause|v] eqn:Hs; intros H; inversion H; subst;
    exists s, cause; simpl; intuition
  end.
Qed.

Lemma kept_top_rightmost st d fr rest :
  stack_ok st -> frames_below d (stack st) = fr :: rest ->
  rightmost (PoolChildren (pool st)) (child fr).
Proof.
  intros (Hsort & top & Hc & Hr) Hk.
  destruct (pop_frames_chain d _ _ _ Hc Hr) as (top' & Hc' & Hr').
  rewrite (pop_frames_below d _ Hsort), Hk in Hc'.
  destruct (stack_chain_top _ _ _ Hc') as [<- _]. exact Hr'.
Qed.

(** What one line adds to the types of the tree. *)
Lemma handle_line_types st d prop val st' :
  stack_ok st -> handle_line st d prop val = inr st' ->
  forest_types (PoolChildren (pool st')) =
  forest_types (PoolChildren (pool st))
    ++ (if String.eqb prop "type" then [val] else []).
Proof.
  intros Hok H.
  destruct (String.eqb_spec prop "type") as [->|Hne].
  - destruct (handle_type_line st d val Hok)
      as (st1 & newp & Hh & _ & _ & _ & _ & _ & _ & Hat).
    rewrite Hh in H. injection H as <-.
    destruct (frames_below d (stack st)) as [|fr kept] eqn:Hk.
    + destruct Hat as [-> _]. rewrite forest_types_app. reflexivity.
    + destruct Hat as (parent & Hp & -> & _ & _).
      apply (forest_types_store _ _ parent);
        [eapply kept_top_rightmost; eassumption|exact Hp|reflexivity|].
      change (Children (set_Children (Children parent ++ [newChild val]) parent))
        with (Children parent ++ [newChild val]).
      rewrite forest_types_app. reflexivity.
  - rewrite app_nil_r.
    destruct (stack st) as [|fr rest] eqn:Hs.
    + unfold handle_line in H. rewrite Hs in H. simpl andb in H.
      destruct (String.eqb_spec prop "type") as [->|_]; [congruence|].
      destruct (String.eqb prop "version" || String.eqb prop "name");
        injection H as <-; simpl; [rewrite parseLine_Children|]; reflexivity.
    + destruct (handle_prop_line st d prop val fr rest Hok Hs Hne)
        as (current & Hcur & Hh).
      rewrite Hh in H.
      destruct (parseProp current prop val) as [current' [err|]] eqn:Hp;
        [discriminate|].
      injection H as <-. simpl.
      destruct (stack_ok_deref _ _ _ Hok Hs) as (Hr & _).
      rewrite <- (app_nil_r (forest_types (PoolChildren (pool st)))).
      apply (forest_types_store _ _ current); [exact Hr|exact Hcur| |].
      * pose proof (parseProp_Type current prop val Hne) as Ht.
        rewrite Hp in Ht. exact Ht.
      * pose proof (parseProp_Children current prop val) as Hc.
        rewrite Hp in Hc. simpl in Hc. rewrite Hc, app_nil_r. reflexivity.
Qed.

Lemma run_lines_types lines : forall st st',
  stack_ok st -> run_lines st lines = inr st' ->
  forest_types (PoolChildren (pool st')) =
  forest_types (PoolChildren (pool st)) ++ type_values lines.
Proof.
  induction lines as [|l lines IH]; intros st st' Hok H; simpl in H.
  - injection H as <-. simpl. rewrite app_nil_r. reflexivity.
  - pose proof (loop_body_ok st l Hok) as Hok1.
    destruct (loop_body st l) as [e|st1] eqn:Hl; [discriminate|].
    rewrite (IH _ _ Hok1 H). simpl type_values. unfold type_line_value.
    unfold loop_body in Hl.
    destruct (scan_line l) as [[[d prop] val]|].
    + rewrite (handle_line_types _ _ _ _ _ Hok Hl), <- app_assoc.
      destruct (String.eqb prop "type"); reflexivity.
    + injection Hl as <-. reflexivity.
Qed.

(** One line fails only by a typed field that does not convert, with a
    node open. *)
Lemma handle_line_failure st d prop val e :
  stack_ok st -> handle_line st d prop val = inl e ->
  stack st <> [] /\
  exists scan cause,
    In (prop, scan) typed_fields /\ scan val = inl cause /\
    e = ErrParseProp prop cause.
Proof.
  intros Hok H.
  destruct (String.eqb_spec prop "type") as [->|Hne].
  - destruct (handle_type_line st d val Hok) as (st1 & newp & Hh & _).
    rewrite Hh in H. discriminate.
  - destruct (stack st) as [|fr rest] eqn:Hs.
    + unfold handle_line in H. rewrite Hs in H. simpl andb in H.
      destruct (String.eqb_spec prop "type") as [->|_]; [congruence|].
      destruct (String.eqb prop "version" || String.eqb prop "name");
        discriminate.
    + split; [discriminate|].
      destruct (handle_prop_line st d prop val fr rest Hok Hs Hne)
        as (current & Hcur & Hh).
      rewrite Hh in H.
      destruct (parseProp current prop val) as [current' [err|]] eqn:Hp;
        [|discriminate].
      injection H as ->. eapply parseProp_failure_inv. exact Hp.
Qed.

Lemma run_lines_failure lines : forall st e,
  stack_ok st -> run_lines st lines = inl e ->
  exists pre rawLine post st1 d field scan val cause,
    lines = pre ++ rawLine :: post /\
    run_lines st pre = inr st1 /\
    stack st1 <> [] /\
    scan_line rawLine = Some (d, field, val) /\
    In (field, scan) typed_fields /\
    scan val = inl cause /\
    e = ErrParseProp field cause.
Proof.
  induction lines as [|l lines IH]; intros st e Hok H; simpl in H;
    [discriminate|].
  pose proof (loop_body_ok st l Hok) as Hok1.
  destruct (loop_body st l) as [e1|st1] eqn:Hl.
  - injection H as ->. unfold loop_body in Hl.
    destruct (scan_line l) as [[[d prop] val]|] eqn:Hsc; [|discriminate].
    destruct (handle_line_failure _ _ _ _ _ Hok Hl)
      as (Hne & scan & cause & Hin & Hs & ->).
    exists [], l, lines, st, d, prop, scan, val, cause.
    repeat split; assumption.
  - destruct (IH st1 e Hok1 H)
      as (pre & raw & post & st2 & d & f & scan & val & cause
          & -> & Hpre & Hne & Hsc & Hin & Hs & ->).
    exists (l :: pre), raw, post, st2, d, f, scan, val, cause.
    repeat split; try assumption. simpl. rewrite Hl. exact Hpre.
Qed.

End MoreOfTheLoop.

Section SkippedLines.

Lemma mem_byte_TrimLeft c s cutset :
  mem_byte c s = false -> mem_byte c (TrimLeft s cutset) = false.
Proof.
  induction s as [|a s IH]; [reflexivity|].
  intros H. simpl TrimLeft. destruct (mem_byte a cutset); [|exact H].
  apply IH. simpl in H. apply orb_false_iff in H. tauto.
Qed.

Lemma cut_first_absent s sep :
  mem_byte sep s = false -> cut_first s sep = None.
Proof.
  induction s as [|a s IH]; [reflexivity|].
  simpl. intros H. apply orb_false_iff in H as [Ha Hs].
  rewrite Ascii.eqb_sym, Ha, (IH Hs). reflexivity.
Qed.

(** A line that is blank, or has no colon, is skipped. *)
Lemma scan_line_skipped rawLine :
  TrimSpace rawLine = EmptyString \/ mem_byte COLON rawLine = false ->
  scan_line rawLine = None.
Proof.
  unfold scan_line. intros [->|H]; [reflexivity|].
  destruct (String.eqb (TrimSpace rawLine) ""); [reflexivity|].
  unfold SplitN_2. rewrite cut_first_absent; [reflexivity|].
  apply mem_byte_TrimLeft. exact H.
Qed.

End SkippedLines.

Section Header.

Lemma handle_line_open st d prop val st' :
  stack st <> [] -> handle_line st d prop val = inr st' ->
  stack st' <> [] /\
  PoolName (pool st') = PoolName (pool st) /\
  PoolVersion (pool st') = PoolVersion (pool st).
Proof.
  intros Hne. unfold handle_line.
  destruct (stack st) as [|fr rest] eqn:Hs; [congruence|]. simpl andb.
  destruct (String.eqb prop "type").
  - destruct (pop_frames d (fr :: rest)) as [|fr' ?].
    + intros [= <-]. repeat split; discriminate.
    + destruct (deref _ _); [|discriminate].
      intros [= <-]. repeat split; discriminate.
  - destruct (deref _ _) as [current|]; [|discriminate].
    destruct (parseProp current prop val) as [c' [err|]]; [discriminate|].
    intros [= <-]. simpl. repeat split; discriminate.
Qed.

Lemma run_lines_open lines : forall st st',
  stack st <> [] -> run_lines st lines = inr st' ->
  stack st' <> [] /\
  PoolName (pool st') = PoolName (pool st) /\
  PoolVersion (pool st') = PoolVersion (pool st).
Proof.
  induction lines as [|l lines IH]; intros st st' Hne H; simpl in H.
  - injection H as <-. auto.
  - destruct (loop_body st l) as [e|st1] eqn:Hl; [discriminate|].
    assert (H1 : stack st1 <> [] /\ PoolName (pool st1) = PoolName (pool st)
                 /\ PoolVersion (pool st1) = PoolVersion (pool st)).
    { unfold loop_body in Hl.
      destruct (scan_line l) as [[[d prop] val]|].
      - eapply handle_line_open; eassumption.
      - injection Hl as <-. auto. }
    destruct H1 as (Hne1 & Hn1 & Hv1).
    destruct (IH _ _ Hne1 H) as (Hne' & Hn' & Hv').
    split; [exact Hne'|]. split; congruence.
Qed.

(** With no node open, what the loop does to the header and the stack. *)
Lemma handle_line_closed p d prop val :
  handle_line (mkLoop p []) d prop val =
  if String.eqb prop "version" || String.eqb prop "name"
  then inr (mkLoop (parseLine p prop val) [])
  else if String.eqb prop "type"
  then inr (mkLoop (set_PoolChildren (PoolChildren p ++ [newChild val]) p)
                   [mkFrame [(length (PoolChildren p ++ [newChild val]) - 1)%nat] d])
  else inr (mkLoop p []).
Proof.
  unfold handle_line. simpl.
  destruct (String.eqb prop "version" || String.eqb prop "name"); [reflexivity|].
  destruct (String.eqb prop "type"); reflexivity.
Qed.

Lemma run_lines_header lines : forall p st',
  run_lines (mkLoop p []) lines = inr st' ->
  PoolName (pool st') = header_value "name" (PoolName p) lines /\
  PoolVersion (pool st') = header_value "version" (PoolVersion p) lines.
Proof.
  induction lines as [|l lines IH]; intros p st' H; simpl in H.
  - injection H as <-. auto.
  - unfold loop_body in H. simpl header_value.
    destruct (scan_line l) as [[[d prop] val]|]; [|apply IH; exact H].
    rewrite handle_line_closed in H.
    destruct (String.eqb_spec prop "version") as [->|Hv].
    + simpl in H. destruct (IH _ _ H) as [Hn Hver]. simpl in Hn, Hver. auto.
    + destruct (String.eqb_spec prop "name") as [->|Hn].
      * simpl in H. destruct (IH _ _ H) as [Hn Hver]. simpl in Hn, Hver.
        auto.
      * simpl orb in H.
        destruct (String.eqb prop "type").
        -- apply run_lines_open in H; [|discriminate].
           destruct H as (_ & Hn' & Hv'). simpl in Hn', Hv'. auto.
        -- apply IH. exact H.
Qed.

(** Without a [type] line the stack stays empty, no node is made and
    nothing fails. *)
Lemma run_lines_no_type lines : forall p,
  type_values lines = [] ->
  exists p', run_lines (mkLoop p []) lines = inr (mkLoop p' [])
             /\ PoolChildren p' = PoolChildren p
             /\ PoolGUID p' = PoolGUID p.
Proof.
  induction lines as [|l lines IH]; intros p H; [exists p; auto|].
  simpl in H. unfold type_line_value in H. simpl run_lines. unfold loop_body.
  destruct (scan_line l) as [[[d prop] val]|]; [|apply IH; exact H].
  rewrite handle_line_closed.
  destruct (String.eqb prop "type") eqn:Ht; [discriminate|].
  destruct (String.eqb prop "version" || String.eqb prop "name").
  - destruct (IH (parseLine p prop val) H) as (p' & Hr & Hc & Hg).
    exists p'. rewrite Hr, Hc, Hg, parseLine_Children, parseLine_GUID. auto.
  - apply IH. exact H.
Qed.

End Header.

Section Mirror.

Lemma all_nodes_eq P c :
  all_nodes P c <-> P c /\ Forall (all_nodes P) (Children c).
Proof.
  destruct c as [? ? ? ? ? ? ? ? ? ? ? ? kids]. simpl.
  assert (H : (fix go (cs : list ZDBPoolChild) : Prop :=
                 match cs with
                 | [] => True
                 | x :: r => all_nodes P x /\ go r
                 end) kids <-> Forall (all_nodes P) kids).
  { induction kids as [|x r IH]; [split; constructor|].
    rewrite Forall_cons. tauto. }
  tauto.
Qed.

Lemma all_nodes_deref P p : forall cs c,
  Forall (all_nodes P) cs -> deref cs p = Some c -> all_nodes P c.
Proof.
  induction p as [|i p IH]; intros cs c HF Hd; [discriminate|].
  rewrite deref_cons in Hd.
  destruct (cs !! i) as [c0|] eqn:Hi; [|discriminate].
  assert (H0 : all_nodes P c0).
  { rewrite Forall_forall in HF. apply HF.
    apply list_elem_of_lookup. eauto. }
  destruct p as [|j p]; [injection Hd as <-; exact H0|].
  apply all_nodes_eq in H0 as [_ Hk]. eapply IH; eassumption.
Qed.

(** A write keeps a property of all nodes when the node written has it and
    the property does not look at the children. *)
Lemma all_nodes_store (P : ZDBPoolChild -> Prop) p : forall cs v,
  (forall c k, P c -> P (set_Children k c)) ->
  Forall (all_nodes P) cs -> all_nodes P v ->
  Forall (all_nodes P) (store cs p v).
Proof.
  induction p as [|i p IH]; intros cs v Hset HF Hv; [exact HF|].
  simpl store. destruct (cs !! i) as [c0|] eqn:Hi; [|exact HF].
  apply Forall_insert; [exact HF|].
  destruct p as [|j p]; [exact Hv|].
  assert (H0 : all_nodes P c0).
  { rewrite Forall_forall in HF. apply HF.
    apply list_elem_of_lookup. eauto. }
  apply all_nodes_eq in H0 as [H0 Hk].
  apply all_nodes_eq. split; [apply Hset; exact H0|].
  apply IH; assumption.
Qed.

Lemma node_mirrors_set_Children c k :
  node_mirrors c -> node_mirrors (set_Children k c).
Proof.
  intros (H1 & H2 & H3). split; [exact H1|]. split; [exact H2|].
  intros f scan get Hin. specialize (H3 f scan get Hin).
  unfold typed_getters in Hin. simpl in Hin.
  repeat (destruct Hin as [Hin|Hin]; [injection Hin as <- <- <-; exact H3|]).
  destruct Hin.
Qed.

Lemma newChild_mirrors val : node_mirrors (newChild val).
Proof.
  split; [reflexivity|]. split; [reflexivity|].
  intros f scan get Hin. unfold typed_getters in Hin. simpl in Hin.
  repeat (destruct Hin as [Hin|Hin]; [injection Hin as <- <- <-; reflexivity|]).
  destruct Hin.
Qed.

Ltac lookup_key :=
  rewrite lookup_insert;
  match goal with
  | |- context [decide (?a = ?b)] =>
    destruct (decide (a = b)) as [?Heq|?Hne];
    [try discriminate; try congruence|try congruence]
  end.

(** A successful [parseProp] keeps the fields and the map in step. *)
Lemma parseProp_mirrors c prop val c' :
  node_mirrors c -> parseProp c prop val = (c', None) -> node_mirrors c'.
Proof.
  intros (H1 & H2 & H3) Hp.
  assert (Hfields : forall f scan get, In (f, scan, get) typed_getters ->
            In (f, scan) typed_fields).
  { intros f scan get Hin. unfold typed_getters in Hin. simpl in Hin.
    unfold typed_fields. simpl.
    repeat (destruct Hin as [Hin|Hin]; [injection Hin as <- <- <-; tauto|]).
    destruct Hin. }
  unfold parseProp, scan_into in Hp.
  repeat match type of Hp with
  | context [String.eqb prop ?k] =>
    let E := fresh "E" in
    destruct (String.eqb prop k) eqn:E;
    [apply String.eqb_eq in E; subst prop|apply String.eqb_neq in E]
  end;
  try match type of Hp with
  | context [match ?s val with inl _ => _ | inr _ => _ end] =>
    destruct (s val) as [cause|v] eqn:Hs; [discriminate Hp|]
  end;
  injection Hp as <-;
  (split; [|split]);
  try (simpl; lookup_key; simpl in *; congruence);
  try (simpl; lookup_key; simpl in *; rewrite ?H2; reflexivity).
  all: intros f scan get Hin; specialize (H3 f scan get Hin);
    unfold typed_getters in Hin; simpl in Hin;
    repeat (destruct Hin as [Hin|Hin];
            [injection Hin as <- <- <-; simpl;
             lookup_key; simpl in *; try assumption; try congruence|]);
    try destruct Hin.
Qed.

End Mirror.

Section MirrorLoop.

Lemma handle_line_mirrors st d prop val st' :
  Forall (all_nodes node_mirrors) (PoolChildren (pool st)) ->
  handle_line st d prop val = inr st' ->
  Forall (all_nodes node_mirrors) (PoolChildren (pool st')).
Proof.
  intros HF. unfold handle_line.
  assert (Hnew : all_nodes node_mirrors (newChild val)).
  { apply all_nodes_eq. split; [apply newChild_mirrors|constructor]. }
  destruct (_ && _).
  { intros [= <-]. simpl. rewrite parseLine_Children. exact HF. }
  destruct (String.eqb prop "type").
  { destruct (pop_frames d (stack st)) as [|fr ?].
    - intros [= <-]. simpl. apply Forall_app. split; [exact HF|].
      constructor; [exact Hnew|constructor].
    - destruct (deref _ _) as [parent|] eqn:Hd; [|discriminate].
      intros [= <-]. simpl.
      pose proof (all_nodes_deref _ _ _ _ HF Hd) as Hp.
      apply all_nodes_eq in Hp as [Hp Hk].
      apply all_nodes_store; [apply node_mirrors_set_Children|exact HF|].
      apply all_nodes_eq. split; [apply node_mirrors_set_Children; exact Hp|].
      simpl. apply Forall_app. split; [exact Hk|].
      constructor; [exact Hnew|constructor]. }
  destruct (stack st) as [|fr ?]; [intros [= <-]; exact HF|].
  destruct (deref _ _) as [current|] eqn:Hd; [|discriminate].
  destruct (parseProp current prop val) as [c' [err|]] eqn:Hp; [discriminate|].
  intros [= <-]. simpl.
  pose proof (all_nodes_deref _ _ _ _ HF Hd) as Hc.
  apply all_nodes_eq in Hc as [Hc Hk].
  apply all_nodes_store; [apply node_mirrors_set_Children|exact HF|].
  apply all_nodes_eq. split; [eapply parseProp_mirrors; eassumption|].
  pose proof (parseProp_Children current prop val) as Hch.
  rewrite Hp in Hch. simpl in Hch. rewrite Hch. exact Hk.
Qed.

Lemma run_lines_mirrors lines : forall st st',
  Forall (all_nodes node_mirrors) (PoolChildren (pool st)) ->
  run_lines st lines = inr st' ->
  Forall (all_nodes node_mirrors) (PoolChildren (pool st')).
Proof.
  induction lines as [|l lines IH]; intros st st' HF H; simpl in H.
  - injection H as <-. exact HF.
  - destruct (loop_body st l) as [e|st1] eqn:Hl; [discriminate|].
    apply (IH st1 st'); [|exact H]. unfold loop_body in Hl.
    destruct (scan_line l) as [[[d prop] val]|].
    + eapply handle_line_mirrors; eassumption.
    + injection Hl as <-. exact HF.
Qed.

Lemma stack_pointers_deref cs stk : forall top,
  stack_chain top stk -> rightmost cs top ->
  forall fr, In fr stk -> exists c, deref cs (child fr) = Some c.
Proof.
  induction stk as [|fr0 rest IH]; intros top Hc Hr fr Hin; [destruct Hin|].
  destruct Hc as (Hch & Hne & Hc). destruct Hin as [<-|Hin].
  - rewrite Hch. apply rightmost_deref; assumption.
  - eapply IH; [exact Hc|apply rightmost_removelast; exact Hr|exact Hin].
Qed.

End MirrorLoop.

(* ===================================================================== *)
(** * Statements about the parser, beyond the claims *)
(* ===================================================================== *)

(** X1.  For every input, the loop of [GetPool] never follows a pointer
    that leads to no node, and after any number of lines read without
    error the depths of the frames strictly increase from the bottom of
    the stack to its top, the pointers of the frames are the prefixes of
    one path down the last child of each level of the tree, and every
    frame's pointer leads to a node of the tree. *)
Theorem X1_stack_is_sorted_and_points_into_the_tree
    (name currentGUID : string) (lines : list string) :
  match run_lines (init_loop name currentGUID) lines with
  | inl e => e <> PanicInvalidPointer
  | inr st =>
    indents_sorted (stack st) /\
    (exists top, stack_chain top (stack st) /\
                 rightmost (PoolChildren (pool st)) top) /\
    forall fr, In fr (stack st) ->
      exists c, deref (PoolChildren (pool st)) (child fr) = Some c
  end.
Proof.
  pose proof (run_lines_ok lines _ (init_loop_ok name currentGUID)) as H.
  destruct (run_lines (init_loop name currentGUID) lines) as [e|st];
    [exact H|].
  destruct H as (Hs & top & Hc & Hr).
  split; [exact Hs|]. split; [eauto|].
  eapply stack_pointers_deref; eassumption.
Qed.

(** X2.  When the parse succeeds, the types of the nodes of the tree, read
    parent first and children in order, are the values of the [type] lines
    of the input in the order of the lines: every [type] line makes one
    node, nothing else makes or removes a node, and the order is kept. *)
Theorem X2_nodes_follow_the_type_lines
    (name currentGUID : string) (lines : list string) (p : ZDBPool) :
  parse_lines name currentGUID lines = inr p ->
  forest_types (PoolChildren p) = type_values lines /\
  length (forest_types (PoolChildren p)) = length (type_values lines).
Proof.
  unfold parse_lines. intros H.
  destruct (run_lines (init_loop name currentGUID) lines) as [e|st] eqn:Hr;
    [discriminate|].
  injection H as <-.
  pose proof (run_lines_types lines _ _ (init_loop_ok name currentGUID) Hr) as Ht.
  simpl in Ht. rewrite Ht. auto.
Qed.

Lemma X2_nodes_witness :
  parse_lines "tank" "" nested_lines
    = inr (pool (state_after "tank" "" nested_lines)) /\
  forest_types (PoolChildren (pool (state_after "tank" "" nested_lines)))
    = ["root"; "mirror"; "disk"].
Proof.
  assert (H : parse_lines "tank" "" nested_lines
              = inr (pool (state_after "tank" "" nested_lines)))
    by (vm_compute; reflexivity).
  split; [exact H|].
  rewrite (proj1 (X2_nodes_follow_the_type_lines _ _ _ _ H)).
  vm_compute. reflexivity.
Defined.

(** X3.  The parse fails in one way only: some line, read while a node is
    open and after lines that were read without error, gives one of the
    nine typed fields a value its scanner refuses; the error is the
    conversion error of that field and that cause. *)
Theorem X3_parse_fails_only_by_a_typed_field
    (name currentGUID : string) (lines : list string) (e : error) :
  parse_lines name currentGUID lines = inl e ->
  exists pre rawLine post st d field scan val cause,
    lines = pre ++ rawLine :: post /\
    run_lines (init_loop name currentGUID) pre = inr st /\
    stack st <> [] /\
    scan_line rawLine = Some (d, field, val) /\
    In (field, scan) typed_fields /\
    scan val = inl cause /\
    e = ErrParseProp field cause.
Proof.
  unfold parse_lines. intros H.
  destruct (run_lines (init_loop name currentGUID) lines) as [e'|st] eqn:Hr;
    [|discriminate].
  injection H as ->.
  exact (run_lines_failure lines _ _ (init_loop_ok name currentGUID) Hr).
Qed.

Lemma X3_parse_failure_witness :
  parse_lines "tank" "" [root_line; bad_guid_line]
    = inl (ErrParseProp "guid" fmt.ErrExpectedInteger) /\
  exists pre rawLine post,
    [root_line; bad_guid_line] = pre ++ rawLine :: post.
Proof.
  assert (H : parse_lines "tank" "" [root_line; bad_guid_line]
              = inl (ErrParseProp "guid" fmt.ErrExpectedInteger))
    by (vm_compute; reflexivity).
  split; [exact H|].
  destruct (X3_parse_fails_only_by_a_typed_field _ _ _ _ H)
    as (pre & raw & post & _ & _ & _ & _ & _ & _ & Hl & _).
  exists pre, raw, post. exact Hl.
Defined.

(** X4.  A raw line that is blank, or that has no colon, has no effect
    wherever it stands: the input with the line and the input without it
    are read alike from every state, and parse alike. *)
Theorem X4_blank_and_colonless_lines_are_ignored
    (rawLine : string) :
  TrimSpace rawLine = EmptyString \/ mem_byte COLON rawLine = false ->
  forall st l1 l2,
    run_lines st (l1 ++ rawLine :: l2) = run_lines st (l1 ++ l2) /\
    forall name currentGUID,
      parse_lines name currentGUID (l1 ++ rawLine :: l2)
        = parse_lines name currentGUID (l1 ++ l2).
Proof.
  intros H st l1 l2.
  assert (Hrun : forall st0, run_lines st0 (l1 ++ rawLine :: l2)
                             = run_lines st0 (l1 ++ l2)).
  { intros st0. rewrite !run_lines_app.
    destruct (run_lines st0 l1) as [e|st1]; [reflexivity|].
    simpl. unfold loop_body. rewrite (scan_line_skipped _ H). reflexivity. }
  split; [apply Hrun|].
  intros name currentGUID. unfold parse_lines. rewrite Hrun. reflexivity.
Qed.

Lemma X4_ignored_line_witness :
  mem_byte COLON "MOS Configuration" = false /\
  parse_lines "tank" "" (["version: 5000"] ++ "MOS Configuration" :: [root_line])
    = parse_lines "tank" "" (["version: 5000"] ++ [root_line]).
Proof.
  split; [reflexivity|].
  exact (proj2 (X4_blank_and_colonless_lines_are_ignored "MOS Configuration"
                  (or_intror eq_refl) (init_loop "tank" "")
                  ["version: 5000"] [root_line]) "tank" "").
Defined.

(** X5.  Once a node is open the header is closed: from a state with a
    frame on the stack, whatever lines are read without error, the stack
    never becomes empty again and the name and the version of the record
    stay as they are ([version] and [name] lines met from then on are
    properties of the open node). *)
Theorem X5_header_is_closed_once_a_node_is_open
    (st st' : loopState) (lines : list string) :
  stack st <> [] ->
  run_lines st lines = inr st' ->
  stack st' <> [] /\
  PoolName (pool st') = PoolName (pool st) /\
  PoolVersion (pool st') = PoolVersion (pool st) /\
  PoolGUID (pool st') = PoolGUID (pool st).
Proof.
  intros Hne H.
  destruct (run_lines_open lines _ _ Hne H) as (H1 & H2 & H3).
  repeat split; try assumption. eapply run_lines_GUID. exact H.
Qed.

Lemma X5_header_witness :
  stack (state_after "tank" "" nested_lines) <> [] /\
  PoolName (pool (state_after "tank" ""
                    (nested_lines ++ ["name: other"; "version: 1"])))
    = "tank" /\
  PoolVersion (pool (state_after "tank" ""
                       (nested_lines ++ ["name: other"; "version: 1"])))
    = "5000".
Proof.
  assert (H0 : stack (state_after "tank" "" nested_lines) <> [])
    by (vm_compute; discriminate).
  assert (H1 : run_lines (state_after "tank" "" nested_lines)
                 ["name: other"; "version: 1"]
               = inr (state_after "tank" ""
                        (nested_lines ++ ["name: other"; "version: 1"])))
    by (vm_compute; reflexivity).
  destruct (X5_header_is_closed_once_a_node_is_open _ _ _ H0 H1)
    as (_ & Hn & Hv & _).
  split; [exact H0|]. rewrite Hn, Hv. split; vm_compute; reflexivity.
Defined.

(** X6.  For every input, when the parse succeeds the name of the record
    is the value of the last [name] line before the first [type] line, or
    the name of the call when there is none, and its version is the value
    of the last [version] line before the first [type] line, or empty. *)
Theorem X6_header_comes_from_the_lines_before_the_first_node
    (name currentGUID : string) (lines : list string) (p : ZDBPool) :
  parse_lines name currentGUID lines = inr p ->
  PoolName p = header_value "name" name lines /\
  PoolVersion p = header_value "version" "" lines.
Proof.
  unfold parse_lines. intros H.
  destruct (run_lines (init_loop name currentGUID) lines) as [e|st] eqn:Hr;
    [discriminate|].
  injection H as <-.
  exact (run_lines_header lines _ _ Hr).
Qed.

Lemma X6_header_witness :
  parse_lines "pond" "" (Split ZDBOutput NL)
    = inr (mkZDBPool "tank" "" "5000" [sample_root]) /\
  header_value "name" "pond" (Split ZDBOutput NL) = "tank" /\
  header_value "name" "pond" [root_line; "name: late"] = "pond".
Proof.
  assert (H : parse_lines "pond" "" (Split ZDBOutput NL)
              = inr (mkZDBPool "tank" "" "5000" [sample_root]))
    by (vm_compute; reflexivity).
  split; [exact H|].
  rewrite <- (proj1 (X6_header_comes_from_the_lines_before_the_first_node
                       _ _ _ _ H)).
  split; [reflexivity|vm_compute; reflexivity].
Defined.

(** X7.  An input without [type] line never fails, whatever its other
    lines hold (a typed field is converted only for an open node): the
    parse gives a record without children, with the GUID of the call and
    the header the lines give. *)
Theorem X7_input_without_type_line_gives_empty_record
    (name currentGUID : string) (lines : list string) :
  type_values lines = [] ->
  parse_lines name currentGUID lines =
    inr (mkZDBPool (header_value "name" name lines) currentGUID
                   (header_value "version" "" lines) []).
Proof.
  intros H.
  destruct (run_lines_no_type lines (mkZDBPool name currentGUID "" []) H)
    as (p' & Hr & Hc & Hg).
  pose proof (run_lines_header lines _ _ Hr) as [Hn Hv].
  unfold parse_lines, init_loop. rewrite Hr. simpl in *.
  destruct p' as [n g v cs]. simpl in *. subst. reflexivity.
Qed.

Lemma X7_no_type_witness :
  type_values ["name: tank"; "guid: not-a-number"] = [] /\
  parse_lines "pond" "7" ["name: tank"; "guid: not-a-number"]
    = inr (mkZDBPool "tank" "7" "" []).
Proof.
  assert (H : type_values ["name: tank"; "guid: not-a-number"] = [])
    by (vm_compute; reflexivity).
  split; [exact H|].
  rewrite (X7_input_without_type_line_gives_empty_record "pond" "7" _ H).
  vm_compute. reflexivity.
Defined.

(** X8.  In every record a successful parse returns, each node's typed
    fields agree with its property map: [Type] and [Path] are the map's
    [type] and [path] entries ([Path] is empty without one), and each of
    the nine numeric fields is what its scanner reads from the field's
    entry, or zero when the map has no entry for it. *)
Theorem X8_typed_fields_agree_with_the_property_map
    (name currentGUID : string) (lines : list string) (p : ZDBPool) :
  parse_lines name currentGUID lines = inr p ->
  Forall (all_nodes node_mirrors) (PoolChildren p).
Proof.
  unfold parse_lines. intros H.
  destruct (run_lines (init_loop name currentGUID) lines) as [e|st] eqn:Hr;
    [discriminate|].
  injection H as <-.
  apply (run_lines_mirrors lines (init_loop name currentGUID) st); [constructor|exact Hr].
Qed.

Lemma X8_mirror_witness :
  parse_lines "tank" "" (Split ZDBOutput NL)
    = inr (mkZDBPool "tank" "" "5000" [sample_root]) /\
  node_mirrors sample_root.
Proof.
  assert (H : parse_lines "tank" "" (Split ZDBOutput NL)
              = inr (mkZDBPool "tank" "" "5000" [sample_root]))
    by (vm_compute; reflexivity).
  split; [exact H|].
  pose proof (X8_typed_fields_agree_with_the_property_map _ _ _ _ H) as HF.
  simpl in HF. apply Forall_cons in HF as [Hn _].
  apply all_nodes_eq in Hn as [Hn _]. exact Hn.
Defined.

(* ===================================================================== *)
(** * Statements about the cache and the commands, beyond the claims *)
(* ===================================================================== *)

Section MoreOfTheCache.

Lemma RunBytes_history c args w :
  CallHistory (snd (RunBytes c args w)) =
  CallHistory w ++ [if Sudo c then ("sudo", Bin c :: args) else (Bin c, args)].
Proof.
  unfold RunBytes. destruct (Sudo c); simpl; destruct (out_err _); reflexivity.
Qed.

Lemma fetch_parse_store_history z name currentGUID w :
  CallHistory (snd (fetch_parse_store z name currentGUID w)) =
  CallHistory w ++ [zdb_command (cmd z) name].
Proof.
  destruct (fetch_parse_store_cases z name currentGUID w)
    as [(err & _ & ->)|[(_ & ->)|[(lines & err & _ & _ & _ & ->)
       |(lines & p & _ & _ & _ & ->)]]];
    simpl; try destruct (0 <? cacheTTL z); simpl;
    rewrite zdbOutput_world, RunBytes_history; unfold zdb_command;
    destruct (Sudo (cmd z)); reflexivity.
Qed.

(** The cache after the fetching path: at most the key of the call has
    changed. *)
Lemma fetch_parse_store_cache z name currentGUID w :
  zdbCache (snd (fetch_parse_store z name currentGUID w)) = zdbCache w \/
  exists p,
    fst (fetch_parse_store z name currentGUID w) = inr p /\
    0 < cacheTTL z /\
    zdbCache (snd (fetch_parse_store z name currentGUID w)) =
      <[cacheKey name currentGUID :=
          mkEntry p currentGUID
            (now (snd (fetch_parse_store z name currentGUID w)) + cacheTTL z)]>
        (zdbCache w).
Proof.
  destruct (fetch_parse_store_cases z name currentGUID w)
    as [(err & _ & E)|[(_ & E)|[(lines & err & _ & _ & _ & E)
       |(lines & p & _ & _ & _ & E)]]]; rewrite E; simpl;
    try (left; apply zdbOutput_cache).
  destruct (Z.ltb_spec 0 (cacheTTL z)).
  - right. exists p. simpl. rewrite zdbOutput_cache. auto.
  - left. apply zdbOutput_cache.
Qed.

Lemma GetPool_cache z name currentGUID w :
  zdbCache (snd (GetPool z name currentGUID w)) = zdbCache w \/
  exists p,
    fst (GetPool z name currentGUID w) = inr p /\
    cache_lookup z (cacheKey name currentGUID) w = None /\
    0 < cacheTTL z /\
    zdbCache (snd (GetPool z name currentGUID w)) =
      <[cacheKey name currentGUID :=
          mkEntry p currentGUID
            (now (snd (GetPool z name currentGUID w)) + cacheTTL z)]>
        (zdbCache w).
Proof.
  unfold GetPool.
  destruct (cache_lookup z (cacheKey name currentGUID) w) as [p0|] eqn:Hl;
    [left; reflexivity|].
  destruct (fetch_parse_store_cache z name currentGUID w)
    as [H|(p & Hp & Ht & Hc)]; [left; exact H|].
  right. exists p. auto.
Qed.

Lemma fetch_parse_store_GUID z name currentGUID w p :
  fst (fetch_parse_store z name currentGUID w) = inr p ->
  PoolGUID p = currentGUID.
Proof.
  destruct (fetch_parse_store_cases z name currentGUID w)
    as [(err & _ & E)|[(_ & E)|[(lines & err & _ & _ & _ & E)
       |(lines & p' & _ & _ & Hp & E)]]]; rewrite E; simpl;
    try discriminate.
  intros [= <-]. unfold parse_lines in Hp.
  destruct (run_lines (init_loop name currentGUID) lines) as [e|st] eqn:Hr;
    [discriminate|].
  injection Hp as <-. apply (run_lines_GUID _ _ _ Hr).
Qed.

End MoreOfTheCache.

(** X9.  Whatever its outcome, a [GetPool] leaves every cache entry under
    a key other than the key of the call as it was, and removes no entry:
    a key that had an entry before the call has one after it. *)
Theorem X9_other_cache_entries_are_untouched
    (z : zdb) (name currentGUID : string) (w : World) :
  (forall key, key <> cacheKey name currentGUID ->
     zdbCache (snd (GetPool z name currentGUID w)) !! key = zdbCache w !! key) /\
  (forall key, is_Some (zdbCache w !! key) ->
     is_Some (zdbCache (snd (GetPool z name currentGUID w)) !! key)).
Proof.
  destruct (GetPool_cache z name currentGUID w) as [->|(p & _ & _ & _ & ->)].
  - split; auto.
  - split.
    + intros key Hne. apply lookup_insert_ne. congruence.
    + intros key Hs. rewrite lookup_insert.
      destruct (decide (cacheKey name currentGUID = key)); [eauto|exact Hs].
Qed.

Lemma X9_other_entries_witness :
  zdbCache (snd (GetPool (zdb_printing ZDBOutput ttl_100ms) "pond" ""
                   world_after_first_call)) !! "tank"
  = zdbCache world_after_first_call !! "tank".
Proof.
  apply (proj1 (X9_other_cache_entries_are_untouched
                  (zdb_printing ZDBOutput ttl_100ms) "pond" ""
                  world_after_first_call)).
  vm_compute. discriminate.
Defined.

(** X10.  A [GetPool] runs at most one command: none when a live cache
    entry is served, and otherwise exactly one, which is the binary of the
    client with the arguments [-C] and the name of the pool, behind
    [sudo] when the client says so.  The GUID of the call is no part of
    the command. *)
Theorem X10_one_command_per_fetch
    (z : zdb) (name currentGUID : string) (w : World) :
  CallHistory (snd (GetPool z name currentGUID w)) =
  CallHistory w ++
  match cache_lookup z (cacheKey name currentGUID) w with
  | Some _ => []
  | None => [zdb_command (cmd z) name]
  end.
Proof.
  unfold GetPool.
  destruct (cache_lookup z (cacheKey name currentGUID) w).
  - simpl. rewrite app_nil_r. reflexivity.
  - apply fetch_parse_store_history.
Qed.

(** X11.  An entry is stale from the instant of its expiry on: when the
    cache holds, for the key of the call, an entry whose expiry is the
    current time or earlier, [GetPool] does not serve it but runs the
    tool; if the call fails the stale entry stays in the cache, and if it
    succeeds with caching enabled the entry is replaced by the new record
    with expiry the time of the store plus the TTL. *)
Theorem X11_entry_is_stale_at_its_expiry
    (z : zdb) (name currentGUID : string) (w : World) (entry : zdbCacheEntry) :
  zdbCache w !! cacheKey name currentGUID = Some entry ->
  expiry entry <= now w ->
  GetPool z name currentGUID w = fetch_parse_store z name currentGUID w /\
  CallHistory (snd (GetPool z name currentGUID w))
    = CallHistory w ++ [zdb_command (cmd z) name] /\
  match fst (GetPool z name currentGUID w) with
  | inl _ =>
    zdbCache (snd (GetPool z name currentGUID w)) !! cacheKey name currentGUID
      = Some entry
  | inr p =>
    zdbCache (snd (GetPool z name currentGUID w)) !! cacheKey name currentGUID
      = Some (if 0 <? cacheTTL z
              then mkEntry p currentGUID
                     (now (snd (GetPool z name currentGUID w)) + cacheTTL z)
              else entry)
  end.
Proof.
  intros He Hexp.
  assert (Hmiss : cache_lookup z (cacheKey name currentGUID) w = None).
  { unfold cache_lookup. rewrite He.
    destruct (0 <? cacheTTL z); [|reflexivity].
    destruct (Z.ltb_spec (now w) (expiry entry)); [lia|reflexivity]. }
  rewrite (GetPool_miss _ _ _ _ Hmiss).
  split; [reflexivity|]. split; [apply fetch_parse_store_history|].
  destruct (fetch_parse_store_cases z name currentGUID w)
    as [(err & _ & E)|[(_ & E)|[(lines & err & _ & _ & _ & E)
       |(lines & p & _ & _ & _ & E)]]]; rewrite E; simpl;
    try (rewrite zdbOutput_cache; exact He).
  destruct (0 <? cacheTTL z); simpl.
  - apply lookup_insert_eq.
  - rewrite zdbOutput_cache. exact He.
Qed.

Lemma X11_stale_entry_witness :
  zdbCache stale_world !! cacheKey "tank" ""
    = Some (mkEntry sample_pool "" ttl_100ms) /\
  expiry (mkEntry sample_pool "" ttl_100ms) <= now stale_world /\
  CallHistory (snd (GetPool (zdb_printing ZDBOutput ttl_100ms) "tank" ""
                      stale_world))
  = CallHistory stale_world
    ++ [zdb_command (cmd (zdb_printing ZDBOutput ttl_100ms)) "tank"].
Proof.
  assert (H : zdbCache stale_world !! cacheKey "tank" ""
              = Some (mkEntry sample_pool "" ttl_100ms))
    by (vm_compute; reflexivity).
  assert (H' : expiry (mkEntry sample_pool "" ttl_100ms) <= now stale_world)
    by (vm_compute; discriminate).
  split; [exact H|]. split; [exact H'|].
  pose proof (X11_entry_is_stale_at_its_expiry
    (zdb_printing ZDBOutput ttl_100ms) "tank" "" stale_world
    (mkEntry sample_pool "" ttl_100ms) H H') as HH.
  destruct HH as (_ & HH & _). exact HH.
Defined.

Section CacheKey.

Lemma mem_byte_append c a b :
  mem_byte c (a +:+ b) = mem_byte c a || mem_byte c b.
Proof.
  induction a as [|x a IH]; [reflexivity|].
  change (String x a +:+ b) with (String x (a +:+ b)).
  simpl. rewrite IH, orb_assoc. reflexivity.
Qed.

Lemma keyed_name_has_pipe n g : mem_byte PIPE (n +:+ "|" +:+ g) = true.
Proof.
  rewrite mem_byte_append.
  change (mem_byte PIPE ("|" +:+ g))
    with (Ascii.eqb PIPE PIPE || mem_byte PIPE g).
  rewrite Ascii.eqb_refl. apply orb_true_r.
Qed.

(** In a key the name ends at the first separator. *)
Lemma keyed_name_inj n1 : forall n2 g1 g2,
  mem_byte PIPE n1 = false -> mem_byte PIPE n2 = false ->
  n1 +:+ "|" +:+ g1 = n2 +:+ "|" +:+ g2 -> n1 = n2 /\ g1 = g2.
Proof.
  induction n1 as [|a n1 IH]; intros n2 g1 g2 H1 H2 He.
  - destruct n2 as [|b n2].
    + change (String PIPE g1 = String PIPE g2) in He.
      injection He as He. subst g2. auto.
    + change (String PIPE g1 = String b (n2 +:+ "|" +:+ g2)) in He.
      injection He as <- _. simpl in H2. discriminate.
  - destruct n2 as [|b n2].
    + change (String a (n1 +:+ "|" +:+ g1) = String PIPE g2) in He.
      injection He as -> _. simpl in H1. discriminate.
    + change (String a (n1 +:+ "|" +:+ g1) = String b (n2 +:+ "|" +:+ g2)) in He.
      injection He as <- He. simpl in H1, H2.
      apply orb_false_iff in H1 as [_ H1]. apply orb_false_iff in H2 as [_ H2].
      destruct (IH _ _ _ H1 H2 He) as [-> ->]. auto.
Qed.

Lemma cacheKey_inj n1 g1 n2 g2 :
  mem_byte PIPE n1 = false -> mem_byte PIPE n2 = false ->
  cacheKey n1 g1 = cacheKey n2 g2 -> n1 = n2 /\ g1 = g2.
Proof.
  intros H1 H2. unfold cacheKey.
  destruct (String.eqb_spec g1 "") as [->|Hg1];
    destruct (String.eqb_spec g2 "") as [->|Hg2]; simpl.
  - auto.
  - intros ->. rewrite keyed_name_has_pipe in H1. discriminate.
  - intros <-. rewrite keyed_name_has_pipe in H2. discriminate.
  - apply keyed_name_inj; assumption.
Qed.

End CacheKey.

(** X12.  On pool names that do not hold the separator [|] the cache key
    is injective: two identities with such names and the same key have the
    same name and the same GUID. *)
Theorem X12_cache_key_injective_without_separator
    (n1 g1 n2 g2 : string) :
  mem_byte PIPE n1 = false -> mem_byte PIPE n2 = false ->
  cacheKey n1 g1 = cacheKey n2 g2 ->
  n1 = n2 /\ g1 = g2.
Proof. apply cacheKey_inj. Qed.

Lemma X12_injective_witness :
  mem_byte PIPE "tank" = false /\
  cacheKey "tank" "42" = cacheKey "tank" "42" /\
  cacheKey "tank" "42" <> cacheKey "tank" "" /\
  ("tank" = "tank" /\ "42" = "42").
Proof.
  split; [reflexivity|]. split; [reflexivity|].
  split; [vm_compute; discriminate|].
  exact (X12_cache_key_injective_without_separator "tank" "42" "tank" "42"
           eq_refl eq_refl eq_refl).
Defined.

Lemma GetPool_tidy
    (z : zdb) (name currentGUID : string) (w : World) :
  cache_tidy (zdbCache w) ->
  mem_byte PIPE name = false ->
  cache_tidy (zdbCache (snd (GetPool z name currentGUID w))) /\
  (forall p, fst (GetPool z name currentGUID w) = inr p ->
             PoolGUID p = currentGUID) /\
  cache_tidy ∅.
Proof.
  intros Ht Hn. split; [|split].
  - destruct (GetPool_cache z name currentGUID w)
      as [->|(p & Hp & Hmiss & _ & ->)]; [exact Ht|].
    intros k e Hk. rewrite lookup_insert in Hk.
    destruct (decide (cacheKey name currentGUID = k)) as [<-|_];
      [|apply (Ht k e Hk)].
    injection Hk as <-. simpl. split; [|exists name; auto].
    rewrite (GetPool_miss _ _ _ _ Hmiss) in Hp.
    eapply fetch_parse_store_GUID. exact Hp.
  - intros p Hp. unfold GetPool in Hp.
    destruct (cache_lookup z (cacheKey name currentGUID) w) as [p0|] eqn:Hl.
    + injection Hp as <-.
      destruct (cache_lookup_Some _ _ _ _ Hl) as (_ & e & He & <- & _).
      destruct (Ht _ _ He) as (Hg & n & Hnn & Hk).
      destruct (cacheKey_inj _ _ _ _ Hn Hnn Hk) as [_ ->]. exact Hg.
    + eapply fetch_parse_store_GUID. exact Hp.
  - intros k e Hk. rewrite lookup_empty in Hk. discriminate.
Qed.

(** X13.  When every entry of the cache holds a record with the GUID it
    was stored for, under the key of a name without [|] (as in the empty
    cache), a [GetPool] for a name without [|] keeps the cache so, and the
    record it returns, served from the cache or fetched, has the GUID of
    the call. *)
Theorem X13_record_has_the_callers_guid_also_from_the_cache
    (z : zdb) (name currentGUID : string) (w : World) :
  cache_tidy (zdbCache w) ->
  mem_byte PIPE name = false ->
  cache_tidy (zdbCache (snd (GetPool z name currentGUID w))) /\
  (forall p, fst (GetPool z name currentGUID w) = inr p ->
             PoolGUID p = currentGUID) /\
  cache_tidy ∅.
Proof. apply GetPool_tidy. Qed.

Lemma X13_callers_guid_witness :
  cache_tidy (zdbCache world0) /\
  mem_byte PIPE "tank" = false /\
  forall p,
    fst (GetPool (zdb_printing ZDBOutput ttl_100ms) "tank" "4242" world0) = inr p ->
    PoolGUID p = "4242".
Proof.
  assert (H0 : cache_tidy (zdbCache world0)).
  { intros k e Hk. simpl in Hk. rewrite lookup_empty in Hk. discriminate. }
  split; [exact H0|]. split; [reflexivity|].
  pose proof (X13_record_has_the_callers_guid_also_from_the_cache
                (zdb_printing ZDBOutput ttl_100ms) "tank" "4242" world0
                H0 eq_refl) as HH.
  destruct HH as (_ & HH & _). exact HH.
Defined.

(** X14.  When the loop has read the lines [pre], a node is open and a
    line that is not a [type] line is read without error, the property map
    of the open node afterwards is its former map with the value of the
    line stored under the property of the line (a later line for the same
    property replaces the value; the raw text is kept also for a typed
    field); the children of the node and the stack are as before, and
    every pointer that does not lead to the open node or to a node above
    it leads to the same node as before. *)
Theorem X14_property_line_writes_the_open_node_only
    (name currentGUID : string) (pre : list string) (st st' : loopState)
    (fr : childFrame) (rest : list childFrame)
    (d : nat) (prop val : string) :
  run_lines (init_loop name currentGUID) pre = inr st ->
  stack st = fr :: rest ->
  prop <> "type" ->
  handle_line st d prop val = inr st' ->
  stack st' = stack st /\
  (exists c c',
     deref (PoolChildren (pool st)) (child fr) = Some c /\
     deref (PoolChildren (pool st')) (child fr) = Some c' /\
     Properties c' = <[prop := val]> (Properties c) /\
     Properties c' !! prop = Some val /\
     (forall k, k <> prop -> Properties c' !! k = Properties c !! k) /\
     Children c' = Children c) /\
  forall q, ~ (exists k, child fr = q ++ k) ->
    deref (PoolChildren (pool st')) q = deref (PoolChildren (pool st)) q.
Proof.
  intros Hrun Hs Hne H.
  pose proof (run_lines_reaches_ok _ _ _ _ Hrun) as Hok.
  destruct (handle_prop_line st d prop val fr rest Hok Hs Hne)
    as (c & Hc & Hh).
  rewrite Hh in H.
  destruct (parseProp c prop val) as [c' [err|]] eqn:Hp; [discriminate|].
  injection H as <-. simpl.
  pose proof (parseProp_Properties c prop val) as Hprops.
  pose proof (parseProp_Children c prop val) as Hkids.
  rewrite Hp in Hprops, Hkids. simpl in Hprops, Hkids.
  split; [reflexivity|]. split.
  - exists c, c'. split; [exact Hc|].
    split; [eapply deref_store; exact Hc|].
    split; [exact Hprops|]. rewrite Hprops.
    split; [apply lookup_insert_eq|].
    split; [|exact Hkids].
    intros k Hk. apply lookup_insert_ne. congruence.
  - intros q Hq. eapply deref_store_frame; eassumption.
Qed.

Lemma X14_property_line_witness :
  exists c',
    deref (PoolChildren (pool (state_after "tank" "" (nested_lines ++ [path_line]))))
          [0%nat; 0%nat; 0%nat] = Some c' /\
    Properties c' !! "path" = Some "/dev/da0".
Proof.
  assert (H1 : run_lines (init_loop "tank" "") nested_lines
               = inr (state_after "tank" "" nested_lines))
    by (vm_compute; reflexivity).
  assert (H2 : stack (state_after "tank" "" nested_lines)
               = mkFrame [0%nat; 0%nat; 0%nat] 3
                   :: [mkFrame [0%nat; 0%nat] 2; mkFrame [0%nat] 1])
    by (vm_compute; reflexivity).
  assert (H3 : handle_line (state_after "tank" "" nested_lines) 4 "path" "/dev/da0"
               = inr (state_after "tank" "" (nested_lines ++ [path_line])))
    by (vm_compute; reflexivity).
  pose proof (X14_property_line_writes_the_open_node_only
                "tank" "" nested_lines _ _ _ _ 4%nat "path" "/dev/da0"
                H1 H2 ltac:(discriminate) H3) as HH.
  destruct HH as (_ & (c & c' & _ & Hd & _ & Hl & _) & _).
  exists c'. split; [exact Hd|exact Hl].
Defined.





(* ===================================================================== *)
(** * The helper [ParseUint64] *)

Section Decimal.

Lemma is_digit_byte (c : ascii) :
  is_digit c = true -> 48 <= utf8.byte_of c <= 57.
Proof.
  unfold is_digit, utf8.in_range. intros H.
  apply andb_true_iff in H as [H1 H2].
  apply Z.leb_le in H1, H2. lia.
Qed.

Lemma decimal_from_ge (s : string) : forall n,
  0 <= n -> all_digits s = true -> n <= decimal_from n s.
Proof.
  induction s as [|c s IH]; intros n Hn H; simpl; [lia|].
  simpl in H. apply andb_true_iff in H as [Hc Hs].
  apply is_digit_byte in Hc.
  etransitivity; [|apply IH; [lia|exact Hs]]. lia.
Qed.

(** On digits the loop computes the value, or reports the overflow. *)
Lemma ParseUint_loop_digits (s : string) : forall n,
  0 <= n <= strconv.maxUint64 ->
  all_digits s = true ->
  strconv.ParseUint_loop false 10 (strconv.maxUint64 / 10 + 1) (2 ^ 64 - 1)
    n false s
  = if decimal_from n s <=? strconv.maxUint64
    then Some (inr (decimal_from n s, false)) else Some (inl tt).
Proof.
  unfold strconv.maxUint64.
  change (2 ^ 64 - 1) with 18446744073709551615.
  change (18446744073709551615 / 10 + 1) with 1844674407370955162.
  induction s as [|c s IH]; intros n Hn H.
  - simpl. destruct (Z.leb_spec n 18446744073709551615); [reflexivity|lia].
  - simpl in H. apply andb_true_iff in H as [Hc Hs].
    pose proof (is_digit_byte c Hc) as Hb.
    cbn [strconv.ParseUint_loop decimal_from].
    rewrite andb_false_r.
    unfold is_digit in Hc. rewrite Hc.
    destruct (Z.leb_spec 10 (utf8.byte_of c - 48)) as [Hd|_]; [lia|].
    pose proof (decimal_from_ge s (n * 10 + (utf8.byte_of c - 48))
                  ltac:(lia) Hs) as Hge.
    destruct (Z.leb_spec 1844674407370955162 n) as [Hcut|Hcut].
    { destruct (Z.leb_spec (decimal_from (n * 10 + (utf8.byte_of c - 48)) s)
                  18446744073709551615); [lia|reflexivity]. }
    destruct (Z.ltb_spec 18446744073709551615 (n * 10 + (utf8.byte_of c - 48)))
      as [Hov|Hov].
    { destruct (Z.leb_spec (decimal_from (n * 10 + (utf8.byte_of c - 48)) s)
                  18446744073709551615); [lia|reflexivity]. }
    apply IH; [lia|exact Hs].
Qed.

(** A byte that is no digit ends the loop with a syntax error, unless an
    overflow was met before it: the loop gives no value. *)
Lemma ParseUint_loop_not_digits (s : string) : forall n r,
  all_digits s = false ->
  strconv.ParseUint_loop false 10 (strconv.maxUint64 / 10 + 1) (2 ^ 64 - 1)
    n false s <> Some (inr r).
Proof.
  induction s as [|c s IH]; intros n r H; [discriminate|].
  cbn [strconv.ParseUint_loop]. rewrite andb_false_r.
  simpl in H. unfold is_digit in H.
  destruct (utf8.in_range 48 57 (utf8.byte_of c)) eqn:Hc.
  - simpl in H.
    destruct (10 <=? utf8.byte_of c - 48); [discriminate|].
    destruct (_ <=? n); [discriminate|].
    destruct (_ <? _); [discriminate|].
    apply IH. exact H.
  - destruct (utf8.in_range 97 122 (strconv.lower (utf8.byte_of c))) eqn:Hl;
      [|discriminate].
    unfold utf8.in_range in Hl.
    apply andb_true_iff in Hl as [H1 _]. apply Z.leb_le in H1.
    destruct (Z.leb_spec 10 (strconv.lower (utf8.byte_of c) - 97 + 10));
      [discriminate|lia].
Qed.

(** [strconv.ParseUint] in base 10 and 64 bits: the value of a decimal
    numeral below 2^64, an error on anything else. *)
Lemma ParseUint_decimal (s : string) :
  match strconv.ParseUint s 10 64 with
  | inr v => is_decimal s = true /\ v = decimal_value s /\ v < 2 ^ 64
  | inl _ => is_decimal s = false \/ 2 ^ 64 <= decimal_value s
  end.
Proof.
  destruct s as [|c0 rest]; [left; reflexivity|].
  unfold strconv.ParseUint.
  change (10 =? 0) with false. cbv iota beta.
  destruct (all_digits (String c0 rest)) eqn:Hd.
  - rewrite (ParseUint_loop_digits (String c0 rest) 0); [|unfold strconv.maxUint64; lia|exact Hd].
    fold (decimal_value (String c0 rest)).
    unfold strconv.maxUint64.
    destruct (Z.leb_spec (decimal_value (String c0 rest)) (2 ^ 64 - 1)) as [Hle|Hgt].
    + simpl andb. cbv iota. split; [exact Hd|]. split; [reflexivity|lia].
    + right. lia.
  - pose proof (ParseUint_loop_not_digits (String c0 rest) 0) as Hn.
    destruct (strconv.ParseUint_loop false 10 _ _ 0 false (String c0 rest))
      as [[u|[n us]]|] eqn:Hl.
    + left. exact Hd.
    + exfalso. exact (Hn (n, us) Hd eq_refl).
    + left. exact Hd.
Qed.

End Decimal.

(** X17.  [ParseUint64] returns the value of the text once the white
    space around it is trimmed, when that text is a decimal numeral (one
    digit or more, nothing else: no sign, no underscore, no base prefix)
    of a value below 2^64; it returns zero in every other case, also on
    an overflow, where [strconv.ParseUint] itself gives the largest
    value.  The result is always in the range of a [uint64]. *)
Theorem X17_ParseUint64_is_the_decimal_value_or_zero (value : string) :
  ParseUint64 value =
    (if is_decimal (TrimSpace value) && (decimal_value (TrimSpace value) <? 2 ^ 64)
     then decimal_value (TrimSpace value) else 0) /\
  0 <= ParseUint64 value < 2 ^ 64.
Proof.
  assert (He : ParseUint64 value =
    (if is_decimal (TrimSpace value) && (decimal_value (TrimSpace value) <? 2 ^ 64)
     then decimal_value (TrimSpace value) else 0)).
  { unfold ParseUint64.
    pose proof (ParseUint_decimal (TrimSpace value)) as H.
    destruct (strconv.ParseUint (TrimSpace value) 10 64) as [e|v].
    - destruct H as [H|H].
      + rewrite H. reflexivity.
      + destruct (Z.ltb_spec (decimal_value (TrimSpace value)) (2 ^ 64)); [lia|].
        rewrite andb_false_r. reflexivity.
    - destruct H as (Hd & -> & Hlt). rewrite Hd.
      destruct (Z.ltb_spec (decimal_value (TrimSpace value)) (2 ^ 64)); [|lia].
      reflexivity. }
  split; [exact He|]. rewrite He.
  destruct (is_decimal (TrimSpace value)) eqn:Hd; [|simpl; lia].
  destruct (Z.ltb_spec (decimal_value (TrimSpace value)) (2 ^ 64)); simpl; [|lia].
  split; [|assumption].
  unfold is_decimal in Hd.
  destruct (TrimSpace value) as [|c s]; [discriminate|].
  apply (decimal_from_ge (String c s) 0); [lia|exact Hd].
Qed.

(** The function on a few texts: a padded number, the largest value, an
    overflow, a dash, a sign, an underscore, nothing. *)
Example ParseUint64_examples :
  ParseUint64 " 1099511627776 " = 1099511627776 /\
  ParseUint64 "18446744073709551615" = 2 ^ 64 - 1 /\
  ParseUint64 "18446744073709551616" = 0 /\
  ParseUint64 "-" = 0 /\
  ParseUint64 "+5" = 0 /\
  ParseUint64 "1_000" = 0 /\
  ParseUint64 "" = 0.
Proof. repeat split; vm_compute; reflexivity. Qed.
